(** * Interactivity layer of the business landing page (scripts.js)

    A shallow embedding of the behaviour modules of [scripts.js] and the
    properties of its specification.  JavaScript strings that hold user
    input are lists of UTF-16 code units ([N]); identifiers, attribute
    values and fixed texts are [string]s.  Each behaviour module of the
    script lives in a Rocq module of its own; the DOM is modelled per module
    by the attributes, classes and listeners the module reads or writes. *)

From Stdlib Require Import ZArith NArith QArith Lia Bool List String Ascii.
From stdpp Require Import gmap strings list.
Import ListNotations.

Local Open Scope N_scope.

(** ** JavaScript strings *)

Module JsString.

(** A string value is its sequence of UTF-16 code units. *)
Definition t := list N.

(** An ASCII literal as a JavaScript string. *)
Definition lit (s : string) : t :=
  List.map N_of_ascii (list_ascii_of_string s).

(** ECMAScript WhiteSpace and LineTerminator code points: what [\s]
    matches in a regular expression and what [String.prototype.trim]
    strips. *)
Definition is_space (c : N) : bool :=
  ((9 <=? c) && (c <=? 13))
  || (c =? 32) || (c =? 160) || (c =? 5760)
  || ((8192 <=? c) && (c <=? 8202))
  || (c =? 8232) || (c =? 8233) || (c =? 8239) || (c =? 8287)
  || (c =? 12288) || (c =? 65279).

Fixpoint trimStart (s : t) : t :=
  match s with
  | c :: s' => if is_space c then trimStart s' else s
  | [] => []
  end.

Definition trimEnd (s : t) : t := rev (trimStart (rev s)).

(** [s.trim()] *)
Definition trim (s : t) : t := trimEnd (trimStart s).

(** Truthiness of a string: only the empty string is falsy. *)
Definition truthy (s : t) : bool :=
  match s with [] => false | _ => true end.

End JsString.

(** ** Regular expressions (the fragment used by the script) *)

Module Regex.

(** An item inside a character class. *)
Inductive class_item :=
| ISpace                (* \s *)
| IChar (c : N).        (* a literal code unit *)

Inductive regex :=
| Void                                  (* matches nothing *)
| Eps                                   (* matches the empty string *)
| Lit (c : N)                           (* a literal code unit, e.g. @ or \. *)
| NegClass (items : list class_item)    (* [^...] *)
| Cat (r1 r2 : regex)                   (* r1 r2 *)
| Alt (r1 r2 : regex)                   (* r1|r2 *)
| Star (r : regex)                      (* r* *)
| Plus (r : regex).                     (* r+ *)

Definition item_has (c : N) (i : class_item) : bool :=
  match i with
  | ISpace => JsString.is_space c
  | IChar d => c =? d
  end.

(** [c] is matched by [[^items]]. *)
Definition neg_class_has (items : list class_item) (c : N) : bool :=
  negb (existsb (item_has c) items).

(** Declarative meaning: the strings a regex matches entirely. *)
Inductive Matches : regex -> list N -> Prop :=
| MEps : Matches Eps []
| MLit c : Matches (Lit c) [c]
| MNeg items c : neg_class_has items c = true -> Matches (NegClass items) [c]
| MCat r1 r2 s1 s2 :
    Matches r1 s1 -> Matches r2 s2 -> Matches (Cat r1 r2) (s1 ++ s2)
| MAltL r1 r2 s : Matches r1 s -> Matches (Alt r1 r2) s
| MAltR r1 r2 s : Matches r2 s -> Matches (Alt r1 r2) s
| MStar0 r : Matches (Star r) []
| MStarS r s1 s2 :
    Matches r s1 -> Matches (Star r) s2 -> Matches (Star r) (s1 ++ s2)
| MPlus r s1 s2 :
    Matches r s1 -> Matches (Star r) s2 -> Matches (Plus r) (s1 ++ s2).

(** Executable matcher, by derivatives. *)
Fixpoint nullable (r : regex) : bool :=
  match r with
  | Void => false
  | Eps => true
  | Lit _ => false
  | NegClass _ => false
  | Cat r1 r2 => nullable r1 && nullable r2
  | Alt r1 r2 => nullable r1 || nullable r2
  | Star _ => true
  | Plus r => nullable r
  end.

Fixpoint deriv (c : N) (r : regex) : regex :=
  match r with
  | Void => Void
  | Eps => Void
  | Lit d => if c =? d then Eps else Void
  | NegClass items => if neg_class_has items c then Eps else Void
  | Cat r1 r2 =>
      if nullable r1
      then Alt (Cat (deriv c r1) r2) (deriv c r2)
      else Cat (deriv c r1) r2
  | Alt r1 r2 => Alt (deriv c r1) (deriv c r2)
  | Star r => Cat (deriv c r) (Star r)
  | Plus r => Cat (deriv c r) (Star r)
  end.

(** Whole-string match: what [re.test(s)] computes for a regex anchored
    with [^] and [$] (no flags). *)
Fixpoint matches (r : regex) (s : list N) : bool :=
  match s with
  | [] => nullable r
  | c :: s' => matches (deriv c r) s'
  end.

End Regex.

(** ** Utility functions: [isValidEmail] *)

Module Email.
Import Regex.

Definition at_sign : N := 64.   (* @ *)
Definition dot : N := 46.       (* . *)

(** [[^\s@]] *)
Definition notSpaceAt : regex := NegClass [ISpace; IChar at_sign].

(** [/^[^\s@]+@[^\s@]+\.[^\s@]+$/] *)
Definition emailRegex : regex :=
  Cat (Plus notSpaceAt)
    (Cat (Lit at_sign)
       (Cat (Plus notSpaceAt)
          (Cat (Lit dot) (Plus notSpaceAt)))).

(** A code unit allowed by [[^\s@]]: neither whitespace nor [@]. *)
Definition plain (c : N) : Prop := JsString.is_space c = false /\ c <> at_sign.

(** [isValidEmail(email)]: [emailRegex.test(email)]. *)
Definition isValidEmail (email : JsString.t) : bool :=
  matches emailRegex email.

End Email.

(** ** Form validation and submission *)

Module Form.
Import JsString Email.

Local Open Scope string_scope.

(** An [input] or [textarea] of the contact form. *)
Record field := Field {
  f_id : string;                     (* field.id *)
  f_type : string;                   (* field.type *)
  f_required : bool;                 (* field.hasAttribute('required') *)
  f_value : JsString.t;              (* field.value *)
  f_default : JsString.t;            (* the value form.reset() restores *)
  f_aria_invalid : option string     (* the aria-invalid attribute *)
}.

(** The submit control, [button[type="submit"]]. *)
Record button := Button {
  b_text : string;                   (* textContent *)
  b_disabled : bool;                 (* disabled *)
  b_aria_busy : option string        (* the aria-busy attribute *)
}.

(** A feedback element created by [showFormMessage]. *)
Record message := Message {
  m_node : nat;                      (* identity of the created element *)
  m_text : string;                   (* textContent *)
  m_kind : string                    (* 'success' or 'error' *)
}.

(** The part of the document the form code reads and writes. *)
Record dom := Dom {
  fields : list field;               (* form.querySelectorAll('input, textarea') *)
  errors : gmap string string;       (* textContent of the elements found by
                                        getElementById, by id *)
  submitButton : option button;      (* form.querySelector('button[type="submit"]') *)
  formMessage : option message;      (* form.querySelector('.form-message') *)
  nodes : nat;                       (* feedback elements created so far *)
  removals : list (nat * N);         (* pending setTimeout(() => el.remove(), ms) *)
  focused : option nat               (* index of the focused field *)
}.

(** Attribute values written with a boolean are stringified. *)
Definition string_of_bool (b : bool) : string :=
  if b then "true" else "false".

(** The decision of [validateField]: [(isValid, errorMessage)]. *)
Definition validate (f : field) : bool * string :=
  let value := trim (f_value f) in
  if f_required f && negb (truthy value) then
    (false, "This field is required")
  else if String.eqb (f_type f) "email" && truthy value
          && negb (isValidEmail value) then
    (false, "Please enter a valid email address")
  else if String.eqb (f_id f) "message" && truthy value
          && (N.of_nat (List.length value) <? 10)%N then
    (false, "Message must be at least 10 characters")
  else
    (true, "").

Definition set_aria_invalid (v : string) (f : field) : field :=
  Field (f_id f) (f_type f) (f_required f) (f_value f) (f_default f) (Some v).

Definition set_fields (fs : list field) (d : dom) : dom :=
  Dom fs (errors d) (submitButton d) (formMessage d) (nodes d) (removals d)
    (focused d).

Definition set_errors (es : gmap string string) (d : dom) : dom :=
  Dom (fields d) es (submitButton d) (formMessage d) (nodes d) (removals d)
    (focused d).

Definition set_submitButton (b : option button) (d : dom) : dom :=
  Dom (fields d) (errors d) b (formMessage d) (nodes d) (removals d)
    (focused d).

Definition set_focused (i : option nat) (d : dom) : dom :=
  Dom (fields d) (errors d) (submitButton d) (formMessage d) (nodes d)
    (removals d) i.

(** [errorElement.textContent = text] when the element exists. *)
Definition set_error_text (id text : string) (d : dom) : dom :=
  match errors d !! (id ++ "-error") with
  | Some _ => set_errors (<[id ++ "-error" := text]> (errors d)) d
  | None => d
  end.

(** [validateField(field)] for the field at index [i]: the returned flag
    and the document after the UI update.  An index outside the form is a
    field the form does not have; nothing is validated. *)
Definition validateField (i : nat) (d : dom) : bool * dom :=
  match fields d !! i with
  | Some f =>
      let '(isValid, errorMessage) := validate f in
      let d1 :=
        set_fields (<[i := set_aria_invalid (string_of_bool (negb isValid)) f]>
                      (fields d)) d in
      (isValid, set_error_text (f_id f) errorMessage d1)
  | None => (true, d)
  end.

(** The [input] listener of a field: clears a shown error. *)
Definition onInput (i : nat) (d : dom) : dom :=
  match fields d !! i with
  | Some f =>
      if decide (f_aria_invalid f = Some "true") then
        let d1 := set_error_text (f_id f) "" d in
        set_fields (<[i := set_aria_invalid "false" f]> (fields d1)) d1
      else d
  | None => d
  end.

(** The [blur] listener of a field. *)
Definition onBlur (i : nat) (d : dom) : dom := snd (validateField i d).

(** [showFormMessage(form, message, type)] *)
Definition showFormMessage (text kind : string) (d : dom) : dom :=
  let node := nodes d in
  Dom (fields d) (errors d) (submitButton d)
    (Some (Message node text kind)) (S node)
    (removals d ++ [(node, 5000%N)]) (focused d).

(** The 5 second timer of a feedback element fires: [messageElement.remove()]. *)
Definition removeMessage (node : nat) (d : dom) : dom :=
  let shown :=
    match formMessage d with
    | Some m => if Nat.eqb (m_node m) node then None else Some m
    | None => None
    end in
  Dom (fields d) (errors d) (submitButton d) shown (nodes d)
    (List.filter (fun t => negb (Nat.eqb (fst t) node)) (removals d))
    (focused d).

(** [form.reset()]: every control back to its default value. *)
Definition reset_field (f : field) : field :=
  Field (f_id f) (f_type f) (f_required f) (f_default f) (f_default f)
    (f_aria_invalid f).

Definition formReset (d : dom) : dom :=
  set_fields (List.map reset_field (fields d)) d.

(** [form.querySelectorAll('[aria-invalid]').forEach(f =>
    f.setAttribute('aria-invalid', 'false'))] *)
Definition clear_invalid (f : field) : field :=
  match f_aria_invalid f with
  | Some _ => set_aria_invalid "false" f
  | None => f
  end.

Definition clearValidation (d : dom) : dom :=
  set_fields (List.map clear_invalid (fields d)) d.

(** *** The awaited promise *)

(** How a promise settles. *)
Inductive settled := Fulfilled | Rejected.

(** A promise executor, given the [resolve] and [reject] capabilities,
    returns the timers it schedules: the capability to call and the delay. *)
Definition executor := forall K : Type, K -> K -> list (K * N).

(** [resolve => setTimeout(resolve, 1500)] *)
Definition simulatedCall : executor :=
  fun K resolve reject => [(resolve, 1500%N)].

(** The timer with the least delay settles the promise; later calls of a
    capability are ignored.  Without a timer the promise stays pending. *)
Fixpoint earliest {K} (ts : list (K * N)) : option (K * N) :=
  match ts with
  | [] => None
  | t :: ts' =>
      match earliest ts' with
      | Some t' => if (snd t' <? snd t)%N then Some t' else Some t
      | None => Some t
      end
  end.

Definition settle (e : executor) : option (settled * N) :=
  earliest (e settled Fulfilled Rejected).

(** *** [handleFormSubmission] *)

Definition successText : string :=
  "Thank you! Your message has been sent successfully.".
Definition failureText : string :=
  "Sorry, there was an error sending your message. Please try again.".

(** What the user can do to the fields while the submission is pending. *)
Inductive field_event :=
| Typed (i : nat) (v : JsString.t)    (* value changed, input listener ran *)
| Blurred (i : nat).                  (* blur listener ran *)

Definition set_value (v : JsString.t) (f : field) : field :=
  Field (f_id f) (f_type f) (f_required f) v (f_default f) (f_aria_invalid f).

Definition field_step (d : dom) (e : field_event) : dom :=
  match e with
  | Typed i v =>
      match fields d !! i with
      | Some f => onInput i (set_fields (<[i := set_value v f]> (fields d)) d)
      | None => d
      end
  | Blurred i => onBlur i d
  end.

(** The [try] block up to the [await]. *)
Definition submitStart (d : dom) : dom :=
  set_submitButton (Some (Button "Sending..." true (Some "true"))) d.

(** The rest of the [try] block, after the promise is fulfilled. *)
Definition submitSuccess (d : dom) : dom :=
  clearValidation (formReset (showFormMessage successText "success" d)).

(** The [catch] block. *)
Definition submitFailure (d : dom) : dom :=
  showFormMessage failureText "error" d.

(** The [finally] block; [originalText] was read before the [try]. *)
Definition submitFinally (originalText : string) (d : dom) : dom :=
  set_submitButton (Some (Button originalText false (Some "false"))) d.

(** The body of [handleFormSubmission] around an awaited promise that
    settles as [awaited]; [during] is what happens to the fields while the
    promise is pending.  Without a submit control the function returns at
    once. *)
Definition handleFormSubmissionAwait
    (awaited : settled) (during : list field_event) (d : dom) : dom :=
  match submitButton d with
  | None => d
  | Some b =>
      let originalText := b_text b in
      let d1 := submitStart d in
      let d2 := fold_left field_step during d1 in
      let d3 :=
        match awaited with
        | Fulfilled => submitSuccess d2
        | Rejected => submitFailure d2
        end in
      submitFinally originalText d3
  end.

(** [handleFormSubmission(form)] as written: the awaited promise is the
    simulated call.  [None]: the promise never settles and the function
    never resumes. *)
Definition handleFormSubmission
    (during : list field_event) (d : dom) : option dom :=
  match settle simulatedCall with
  | Some (awaited, _) => Some (handleFormSubmissionAwait awaited during d)
  | None => None
  end.

(** *** The submit listener *)

(** [fields.forEach(field => { if (!validateField(field)) isFormValid = false })] *)
Fixpoint validateAll (n i : nat) (d : dom) : bool * dom :=
  match n with
  | O => (true, d)
  | S n' =>
      let '(ok, d1) := validateField i d in
      let '(rest, d2) := validateAll n' (S i) d1 in
      (ok && rest, d2)
  end.

(** [form.querySelector('[aria-invalid="true"]')] *)
Fixpoint firstInvalid (i : nat) (fs : list field) : option nat :=
  match fs with
  | [] => None
  | f :: fs' =>
      if decide (f_aria_invalid f = Some "true") then Some i
      else firstInvalid (S i) fs'
  end.

(** The [submit] listener of the form. *)
Definition onSubmit (during : list field_event) (d : dom) : option dom :=
  let '(isFormValid, d1) := validateAll (List.length (fields d)) 0 d in
  if isFormValid then handleFormSubmission during d1
  else
    match firstInvalid 0 (fields d1) with
    | Some i => Some (set_focused (Some i) d1)
    | None => Some d1
    end.

(** *** Invariants used in the proofs *)

(** What validation and field events leave alone. *)
Definition same_frame (d d' : dom) : Prop :=
  submitButton d' = submitButton d /\ formMessage d' = formMessage d /\
  nodes d' = nodes d.

End Form.

(** The validation rules in the words of the specification; [value] is the
    field's value after trimming, as in the code. *)

Module FormSpec.
Import JsString Email Form.

Local Open Scope string_scope.

Section Rules.
Variable f : field.

Definition value : JsString.t := trim (f_value f).

(** Rule 1: marked required and trimmed value empty. *)
Definition rule_required : Prop :=
  f_required f = true /\ value = [].

(** Rule 2: email-typed, value non-empty, value fails the pattern. *)
Definition rule_email : Prop :=
  f_type f = "email" /\ value <> [] /\ isValidEmail value = false.

(** Rule 3: the message field, value non-empty, trimmed length < 10. *)
Definition rule_message : Prop :=
  f_id f = "message" /\ value <> [] /\ (List.length value < 10)%nat.
End Rules.

(** The field at index [i] of [d'] carries the validity flag for [ok], and
    its error container, when the document [d] has one, shows [msg]. *)
Definition marked (i : nat) (f : field) (d d' : dom) (ok : bool)
    (msg : string) : Prop :=
  fields d' !! i = Some (set_aria_invalid (string_of_bool (negb ok)) f) /\
  (is_Some (errors d !! (f_id f ++ "-error")) ->
   errors d' !! (f_id f ++ "-error") = Some msg).

(** The shape of an accepted address in the words of the specification: no
    whitespace, exactly one [@] with non-empty parts on both sides, and at
    least one [.] after the [@]. *)
Definition spec_email_shape (s : JsString.t) : Prop :=
  Forall (fun c => is_space c = false) s /\
  exists l d,
    s = (l ++ [at_sign] ++ d)%list /\ ~ In at_sign l /\ ~ In at_sign d /\
    l <> [] /\ d <> [] /\ In dot d.

(** The shape the pattern accepts: as above, and the [.] has at least one
    code unit between the [@] and itself and at least one after itself. *)
Definition email_shape (s : JsString.t) : Prop :=
  Forall (fun c => is_space c = false) s /\
  exists l d1 d2,
    s = (l ++ [at_sign] ++ d1 ++ [dot] ++ d2)%list /\
    ~ In at_sign l /\ ~ In at_sign d1 /\ ~ In at_sign d2 /\
    l <> [] /\ d1 <> [] /\ d2 <> [].

End FormSpec.

(** Sample documents: a contact form with one field, its error container and
    a submit control. *)

Module FormExamples.
Import JsString Form.

Local Open Scope string_scope.

Definition one_field (f : field) (submit : option button) : dom :=
  Dom [f] {[ (f_id f ++ "-error") := "" ]} submit None 0 [] None.

Definition send : option button := Some (Button "Send Message" false None).

Definition blank_name : field :=
  Field "name" "text" true (lit "   ") [] None.

Definition bad_email : field :=
  Field "email" "email" true (lit "not-an-email") [] None.

Definition good_email : field :=
  Field "email" "email" true (lit "a@b.co") [] None.

Definition message9 : field :=
  Field "message" "textarea" true (lit " 123456789 ") [] None.

Definition message10 : field :=
  Field "message" "textarea" true (lit "0123456789") [] None.

(** An email-typed input that carries the id of the message field. *)
Definition email_typed_message : field :=
  Field "message" "email" false (lit "0123456789") [] None.

End FormExamples.

(** ** Smooth scroll navigation *)

Module SmoothScroll.

Local Open Scope string_scope.

(** Elements are known by their identity. *)
Definition node := nat.

(** What [document.querySelector(selector)] does: it returns an element or
    [null], or throws on a selector that does not parse. *)
Inductive query_result :=
| Found (n : node)
| Null
| SyntaxError.

(** The session history of the tab: the entries of this document, by URL
    fragment, and the position of the current one. *)
Record history := History {
  entries : list string;
  index : nat
}.

(** [history.pushState(null, null, url)]: the entries after the current one
    are dropped, a new entry is added and becomes the current one. *)
Definition pushState (url : string) (h : history) : history :=
  History (firstn (S (index h)) (entries h) ++ [url]) (S (index h)).

(** [history.replaceState(null, null, url)]: the current entry is
    overwritten.  The script does not call it. *)
Definition replaceState (url : string) (h : history) : history :=
  History (<[index h := url]> (entries h)) (index h).

(** What the click listener can change. *)
Record page := Page {
  scrolls : list (node * string * string);
      (* scrollIntoView calls: element, behavior, block *)
  focusCalls : list (node * bool);
      (* focus calls: element, preventScroll *)
  hist : history
}.

(** The click listener installed on a link whose [href] attribute is
    [targetId].  Returns whether [e.preventDefault()] was called, and the
    page.  When [querySelector] throws, the listener ends there: nothing
    was called and the default action follows. *)
Definition clickListener
    (querySelector : string -> query_result) (hasPushState : bool)
    (targetId : string) (p : page) : bool * page :=
  if String.eqb targetId "#" then (false, p)
  else
    match querySelector targetId with
    | Found targetElement =>
        (true,
         Page (scrolls p ++ [(targetElement, "smooth", "start")])
              (focusCalls p ++ [(targetElement, true)])
              (if hasPushState then pushState targetId (hist p) else hist p))
    | Null => (false, p)
    | SyntaxError => (false, p)
    end.

(** [initSmoothScroll] installs the listener on the links matched by
    [a[href^="#"]]; a click on any other link runs no listener. *)
Definition click
    (querySelector : string -> query_result) (hasPushState : bool)
    (href : string) (p : page) : bool * page :=
  if String.prefix "#" href
  then clickListener querySelector hasPushState href p
  else (false, p).

(** A sample document: one section, [about], as element 1. *)
Definition sample_document (selector : string) : query_result :=
  if String.eqb selector "#about" then Found 1%nat else Null.

Definition sample_page : page := Page [] [] (History [""] 0).

End SmoothScroll.

(** ** The debounce wrapper *)

Module Debounce.

Local Set Implicit Arguments.

Section Wrapper.
(** The argument list of a call, and the wait time in milliseconds. *)
Variable A : Type.
Variable wait : N.

(** A pending [setTimeout(later, wait)]; [later] has captured the
    arguments of the call that scheduled it. *)
Record timer := Timer {
  t_id : nat;           (* the handle returned by setTimeout *)
  t_due : N;            (* the time from which it may run *)
  t_args : A
}.

Record state := State {
  now : N;                    (* the clock, in ms *)
  nextId : nat;               (* timer handles are handed out increasingly *)
  pending : list timer;       (* the active timers *)
  timeout : option nat;       (* the closure variable; None: undefined *)
  calls : list (N * A)        (* calls of func so far: time, arguments *)
}.

(** The state when [debounce(func, wait)] returns, at time [t0]. *)
Definition init (t0 : N) : state := State t0 0 [] None [].

(** [clearTimeout(timeout)]; an undefined or unknown handle is ignored. *)
Definition clearTimeout (h : option nat) (s : state) : state :=
  match h with
  | Some id =>
      State (now s) (nextId s)
        (List.filter (fun t => negb (Nat.eqb (t_id t) id)) (pending s))
        (timeout s) (calls s)
  | None => s
  end.

(** [timeout = setTimeout(later, wait)], [later] capturing [args]. *)
Definition setTimeout (args : A) (s : state) : state :=
  State (now s) (S (nextId s))
    (pending s ++ [Timer (nextId s) (now s + wait) args])
    (Some (nextId s)) (calls s).

(** The two wrappers compared: the one of the script, whose [later] calls
    [clearTimeout(timeout)] before [func], and the usual one, whose
    [later] only calls [func]. *)
Inductive variant := AsWritten | Standard.

(** [func(...args)] *)
Definition func (args : A) (s : state) : state :=
  State (now s) (nextId s) (pending s) (timeout s)
    (calls s ++ [(now s, args)]).

(** [later()] *)
Definition later (v : variant) (args : A) (s : state) : state :=
  match v with
  | AsWritten => func args (clearTimeout (timeout s) s)
  | Standard => func args s
  end.

(** [executedFunction(...args)] *)
Definition executedFunction (args : A) (s : state) : state :=
  setTimeout args (clearTimeout (timeout s) s).

Definition remove (id : nat) (s : state) : state :=
  State (now s) (nextId s)
    (List.filter (fun t => negb (Nat.eqb (t_id t) id)) (pending s))
    (timeout s) (calls s).

Definition set_now (t : N) (s : state) : state :=
  State t (nextId s) (pending s) (timeout s) (calls s).

(** The browser runs the timer with handle [id], if it is active and
    due: the timer leaves the table and its callback runs. *)
Definition fire (v : variant) (id : nat) (s : state) : state :=
  match List.find (fun t => Nat.eqb (t_id t) id) (pending s) with
  | Some t =>
      if t_due t <=? now s then later v (t_args t) (remove id s) else s
  | None => s
  end.

(** Of two timers, the one to run first: the earlier due time, then the
    older handle. *)
Definition earlier (t u : timer) : bool :=
  (t_due t <? t_due u) || ((t_due t =? t_due u) && (t_id t <=? t_id u)%nat).

(** The first timer to run among those due by [target]. *)
Fixpoint first_due (target : N) (ts : list timer) : option timer :=
  match ts with
  | [] => None
  | t :: ts' =>
      if t_due t <=? target then
        match first_due target ts' with
        | Some u => if earlier t u then Some t else Some u
        | None => Some t
        end
      else first_due target ts'
  end.

(** Run, each at its due time, the timers due by [target]. *)
Fixpoint run_due (fuel : nat) (v : variant) (target : N) (s : state)
    : state :=
  match fuel with
  | O => s
  | S fuel' =>
      match first_due target (pending s) with
      | Some t =>
          run_due fuel' v target
            (later v (t_args t)
               (remove (t_id t) (set_now (N.max (now s) (t_due t)) s)))
      | None => s
      end
  end.

(** What can happen to the wrapper. *)
Inductive event :=
| Invoke (args : A)    (* the debounced function is called *)
| Tick (d : N)         (* [d] ms pass and no timer runs yet *)
| Fire (id : nat)      (* the browser runs a timer that is due *)
| Elapse (d : N).      (* [d] ms pass, timers run as they fall due *)

Definition step (v : variant) (s : state) (e : event) : state :=
  match e with
  | Invoke args => executedFunction args s
  | Tick d => set_now (now s + d) s
  | Fire id => fire v id s
  | Elapse d =>
      set_now (now s + d)
        (run_due (List.length (pending s)) v (now s + d) s)
  end.

Definition run (v : variant) (es : list event) (s : state) : state :=
  fold_left (step v) es s.

(** A burst: a first call, then calls that each follow the previous one
    after less than [wait] ms, given as (gap, arguments). *)
Fixpoint burst_events (rest : list (N * A)) : list event :=
  match rest with
  | [] => []
  | (gap, args) :: rest' => Elapse gap :: Invoke args :: burst_events rest'
  end.

Definition burst (first : A) (rest : list (N * A)) : list event :=
  Invoke first :: burst_events rest.

Definition last_args (first : A) (rest : list (N * A)) : A :=
  List.last (List.map snd rest) first.

Definition span (rest : list (N * A)) : N :=
  fold_right N.add 0 (List.map fst rest).

(** The invariant used in the proofs: at most one timer of the wrapper is
    active, and the closure variable holds its handle. *)
Definition tidy (s : state) : Prop :=
  match pending s with
  | [] => True
  | [t] => timeout s = Some (t_id t)
  | _ => False
  end.

End Wrapper.

Arguments init A t0 : clear implicits.
Arguments Tick {A} d.
Arguments Fire {A} id.
Arguments Elapse {A} d.

End Debounce.

(** ** Mobile menu *)

Module MobileMenu.

Local Open Scope string_scope.
Local Open Scope Z_scope.

(** A [button.mobile-menu-toggle] created by the script. *)
Record toggle := Toggle {
  aria_expanded : string;     (* the aria-expanded attribute *)
  attached : bool             (* whether the button is in the document *)
}.

(** The [nav ul] element.  Of its inline style only [display] is kept; the
    overlay properties set when the menu opens and its [id] play no part in
    what follows. *)
Record nav := Nav {
  menu_open : bool;                (* has the class mobile-menu-open *)
  aria_hidden : option string;     (* the aria-hidden attribute *)
  display : string                 (* style.display *)
}.

Record state := State {
  hasContainer : bool;             (* the document has a .nav-container *)
  resizeListener : bool;           (* the resize listener is installed *)
  buttons : list toggle;           (* the toggles created so far, oldest first *)
  menu : nav;
  clickListeners : list nat;       (* document click listeners, by the toggle
                                      each one closes over, oldest first *)
  keydownListeners : list nat;     (* document keydown listeners, likewise *)
  focus : option nat               (* the toggle that has keyboard focus *)
}.

Definition string_of_bool (b : bool) : string :=
  if b then "true" else "false".

(** [createMobileMenuButton(nav)] *)
Definition createMobileMenuButton (s : state) : state :=
  if hasContainer s then
    let button := List.length (buttons s) in
    State (hasContainer s) (resizeListener s)
      (buttons s ++ [Toggle "false" true])
      (Nav (menu_open (menu s)) (Some "true") "none")
      (clickListeners s ++ [button])
      (keydownListeners s ++ [button])
      (focus s)
  else s.

(** The click listener of the toggle [button]. *)
Definition toggleListener (button : nat) (s : state) : state :=
  match buttons s !! button with
  | Some t =>
      let isExpanded := String.eqb (aria_expanded t) "true" in
      State (hasContainer s) (resizeListener s)
        (<[button := Toggle (string_of_bool (negb isExpanded)) (attached t)]>
           (buttons s))
        (Nav (negb (menu_open (menu s)))
             (Some (string_of_bool isExpanded))
             (if isExpanded then "none" else "flex"))
        (clickListeners s) (keydownListeners s) (focus s)
  | None => s
  end.

(** [button.click()]: the listener of the toggle runs, attached or not.  The
    click of an attached toggle then bubbles to the document with a target
    inside the container, where each document listener does nothing. *)
Definition buttonClick (button : nat) (s : state) : state :=
  toggleListener button s.

(** [button.focus()]: an element outside the document takes no focus. *)
Definition buttonFocus (button : nat) (s : state) : state :=
  match buttons s !! button with
  | Some t =>
      if attached t then
        State (hasContainer s) (resizeListener s) (buttons s) (menu s)
          (clickListeners s) (keydownListeners s) (Some button)
      else s
  | None => s
  end.

(** Where a click lands. *)
Inductive target :=
| OnToggle (button : nat)     (* on a toggle that is in the document *)
| InContainer                 (* elsewhere inside .nav-container *)
| Outside.                    (* outside .nav-container *)

(** [navContainer.contains(e.target)] *)
Definition inContainer (t : target) : bool :=
  match t with
  | Outside => false
  | _ => true
  end.

(** The document click listener registered with the toggle [button]. *)
Definition documentClickListener (t : target) (s : state) (button : nat)
    : state :=
  if negb (inContainer t) && menu_open (menu s) then buttonClick button s
  else s.

(** The document keydown listener registered with the toggle [button]. *)
Definition documentKeydownListener (key : string) (s : state) (button : nat)
    : state :=
  if String.eqb key "Escape" && menu_open (menu s)
  then buttonFocus button (buttonClick button s)
  else s.

(** [document.querySelector('.mobile-menu-toggle')] *)
Fixpoint firstAttached (i : nat) (bs : list toggle) : option nat :=
  match bs with
  | [] => None
  | t :: bs' => if attached t then Some i else firstAttached (S i) bs'
  end.

Definition existingButton (s : state) : option nat :=
  firstAttached 0 (buttons s).

Definition detach (t : toggle) : toggle := Toggle (aria_expanded t) false.

(** The resize listener, once the debounce has settled, with
    [window.innerWidth = innerWidth]. *)
Definition resizeHandler (innerWidth : Z) (s : state) : state :=
  let existing := existingButton s in
  if (innerWidth <? 768) && negb (bool_decide (is_Some existing)) then
    createMobileMenuButton s
  else
    match existing with
    | Some b =>
        if 768 <=? innerWidth then
          State (hasContainer s) (resizeListener s)
            (alter detach b (buttons s))       (* existingButton.remove() *)
            (Nav false None (display (menu s)))
            (clickListeners s) (keydownListeners s) (focus s)
        else s
    | None => s
    end.

(** [initMobileMenu()] on the markup of the page: no toggle yet, the menu
    without class, attribute or inline style.  [navFound]: the document has
    a [nav ul]; [containerFound]: it has a [.nav-container]. *)
Definition initMobileMenu (innerWidth : Z) (navFound containerFound : bool)
    : state :=
  let s0 := State containerFound false [] (Nav false None "") [] [] None in
  if navFound then
    let s1 := if innerWidth <? 768 then createMobileMenuButton s0 else s0 in
    State (hasContainer s1) true (buttons s1) (menu s1) (clickListeners s1)
      (keydownListeners s1) (focus s1)
  else s0.

(** What happens to the page. *)
Inductive event :=
| Resize (innerWidth : Z)     (* the debounced resize listener runs *)
| Click (t : target)          (* the user clicks *)
| Keydown (key : string).     (* the user presses a key *)

(** A user click on a toggle reaches the toggle's listener only when the
    toggle is in the document. *)
Definition userClick (t : target) (s : state) : state :=
  let s1 :=
    match t with
    | OnToggle b =>
        match buttons s !! b with
        | Some tg => if attached tg then toggleListener b s else s
        | None => s
        end
    | _ => s
    end in
  fold_left (documentClickListener t) (clickListeners s1) s1.

Definition step (s : state) (e : event) : state :=
  match e with
  | Resize w => if resizeListener s then resizeHandler w s else s
  | Click t => userClick t s
  | Keydown key => fold_left (documentKeydownListener key) (keydownListeners s) s
  end.

Definition run (es : list event) (s : state) : state := fold_left step es s.

(** The widths the resize listener saw, in order. *)
Fixpoint widths (es : list event) : list Z :=
  match es with
  | [] => []
  | Resize w :: es' => w :: widths es'
  | _ :: es' => widths es'
  end.

(** Crossings below the threshold: a width below 768 seen right after a
    width of 768 or more. *)
Fixpoint crossings (previous : Z) (ws : list Z) : nat :=
  match ws with
  | [] => O
  | w :: ws' =>
      (if (768 <=? previous) && (w <? 768)
       then S (crossings w ws') else crossings w ws')
  end.

(** The toggles in the document. *)
Definition attachedToggles (s : state) : list toggle :=
  List.filter attached (buttons s).

(** The menu is shown. *)
Definition menuVisible (s : state) : Prop :=
  aria_hidden (menu s) = Some "false" /\ display (menu s) = "flex".

(** The menu is hidden. *)
Definition menuHidden (s : state) : Prop :=
  aria_hidden (menu s) = Some "true" /\ display (menu s) = "none".

(** The invariant of the specification: at most one toggle in the
    document, and the menu shown exactly when that toggle is marked
    expanded. *)
Definition consistent (s : state) : Prop :=
  (List.length (attachedToggles s) <= 1)%nat /\
  forall t, In t (attachedToggles s) ->
    (aria_expanded t = "true" -> menuVisible s) /\
    (aria_expanded t <> "true" -> menuHidden s).

(** A visit to the page on a narrow window: the menu is opened, the window
    is widened and narrowed again, the menu is opened with the new toggle,
    and then the user clicks outside the navigation. *)
Definition reopened_menu : list event :=
  [Click (OnToggle 0); Resize 1024; Resize 600; Click (OnToggle 1);
   Click Outside].

(** *** Invariants used in the proofs *)

(** Which toggles are in the document. *)
Definition flags (s : state) : list bool := List.map attached (buttons s).

(** Everything but the attributes of the toggles and of the menu. *)
Definition same_skeleton (s s' : state) : Prop :=
  hasContainer s' = hasContainer s /\
  resizeListener s' = resizeListener s /\
  flags s' = flags s /\
  List.length (buttons s') = List.length (buttons s) /\
  clickListeners s' = clickListeners s /\
  keydownListeners s' = keydownListeners s.

(** The flag of the newest toggle, on a narrow window. *)
Definition tail_flag (narrow : bool) : list bool :=
  if narrow then [true] else [].

(** With a menu and a container: the toggles created so far are all out of
    the document, except the newest one while the window is narrow; each
    toggle has its pair of document listeners. *)
Definition wf (narrow : bool) (s : state) : Prop :=
  hasContainer s = true /\
  resizeListener s = true /\
  (exists k, flags s = (repeat false k ++ tail_flag narrow)%list) /\
  clickListeners s = seq 0 (List.length (buttons s)) /\
  keydownListeners s = seq 0 (List.length (buttons s)).

(** Without a menu or without a container nothing is ever created. *)
Definition inert (s : state) : Prop :=
  buttons s = [] /\ clickListeners s = [] /\ keydownListeners s = [] /\
  (resizeListener s = false \/ hasContainer s = false).

(** The number of toggles the script has created. *)
Definition created (w0 : Z) (navFound containerFound : bool)
    (es : list event) : nat :=
  if navFound && containerFound
  then (if w0 <? 768 then S (crossings w0 (widths es))
        else crossings w0 (widths es))
  else 0%nat.

(** While a single toggle has been created, the menu follows it: this is
    what holds of the states with at most one toggle ever created. *)
Definition in_sync (s : state) : Prop :=
  match buttons s with
  | [] =>
      clickListeners s = [] /\ keydownListeners s = [] /\
      menu_open (menu s) = false
  | [t] =>
      clickListeners s = [0%nat] /\ keydownListeners s = [0%nat] /\
      if attached t then
        menu s = if String.eqb (aria_expanded t) "true"
                 then Nav true (Some "false"%string) "flex"
                 else Nav false (Some "true"%string) "none"
      else menu_open (menu s) = false
  | _ => True
  end.

End MobileMenu.

(** ** Scroll-triggered reveal animations *)

Module Reveal.

(** An [IntersectionObserverEntry], as far as the callback reads it. *)
Record entry := Entry {
  target : nat;               (* entry.target, an element *)
  isIntersecting : bool
}.

Record state := State {
  observed : gset nat;        (* the targets of the observer *)
  pendingClass : gset nat;    (* the elements with the class reveal *)
  visibleClass : gset nat     (* the elements with the class reveal-visible *)
}.

(** The body of the callback for one entry. *)
Definition onEntry (s : state) (e : entry) : state :=
  if isIntersecting e then
    State (observed s ∖ {[target e]}) (pendingClass s)
      ({[target e]} ∪ visibleClass s)
  else s.

(** The observer callback: [entries.forEach(...)]. *)
Definition callback (entries : list entry) (s : state) : state :=
  fold_left onEntry entries s.

(** [initScrollAnimations()]; [supported]: the window has an
    [IntersectionObserver]; [animatedElements]: the elements matched by the
    selector, none of them revealed in the markup. *)
Definition initScrollAnimations (supported : bool)
    (animatedElements : list nat) : state :=
  if supported then
    State (list_to_set animatedElements) (list_to_set animatedElements) ∅
  else State ∅ ∅ ∅.

(** The browser reports a batch of intersection changes: the observer
    hears of those whose element it observes when the batch is made. *)
Definition deliver (s : state) (changes : list entry) : state :=
  callback
    (List.filter (fun e => bool_decide (target e ∈ observed s)) changes) s.

Definition run (batches : list (list entry)) (s : state) : state :=
  fold_left deliver batches s.

(** The batch reports that the element [x] intersects the viewport. *)
Definition intersects (x : nat) (changes : list entry) : bool :=
  existsb (fun e => Nat.eqb (target e) x && isIntersecting e) changes.

(** How many batches changed [x] from not revealed to revealed. *)
Fixpoint reveals (x : nat) (batches : list (list entry)) (s : state) : nat :=
  match batches with
  | [] => O
  | b :: batches' =>
      let s' := deliver s b in
      if bool_decide (x ∉ visibleClass s) && bool_decide (x ∈ visibleClass s')
      then S (reveals x batches' s')
      else reveals x batches' s'
  end.

(** The invariant used in the proofs: revealed elements are no longer
    observed. *)
Definition separated (s : state) : Prop :=
  forall x, x ∈ visibleClass s -> x ∉ observed s.

End Reveal.

(** ** Header scroll effect *)

Module HeaderScroll.

(** The page as the scroll handler sees it.  Scroll offsets are rational
    numbers of pixels. *)
Record state := State {
  listening : bool;                  (* the scroll listener is installed *)
  scrollY : Q;                       (* window.scrollY *)
  scrolled : bool;                   (* the header has the class scrolled *)
  timers : Debounce.state unit       (* the closure of the debounced handler
                                        and its timers *)
}.

(** The handler passed to [debounce]: the class is added when
    [window.scrollY > 10] and removed otherwise. *)
Definition handleScrollBody (s : state) : state :=
  State (listening s) (scrollY s) (negb (Qle_bool (scrollY s) 10)) (timers s).

(** [initHeaderScrollEffect()] at time [t0]; [headerFound]: the document has
    a [header]; [scrolledClass]: whether the markup gives it the class. *)
Definition initHeaderScrollEffect (headerFound : bool) (t0 : N) (y : Q)
    (scrolledClass : bool) : state :=
  State headerFound y scrolledClass (Debounce.init unit t0).

Inductive event :=
| Scroll (y : Q)      (* the page is scrolled to offset y: a scroll event *)
| Wait (d : N).       (* d ms pass, timers run as they fall due *)

(** [wait] of the debounced handler. *)
Definition wait : N := 10.

Definition step (s : state) (e : event) : state :=
  match e with
  | Scroll y =>
      State (listening s) y (scrolled s)
        (if listening s
         then Debounce.executedFunction wait tt (timers s)
         else timers s)
  | Wait d =>
      let t' := Debounce.step wait Debounce.AsWritten (timers s)
                  (Debounce.Elapse d) in
      let s' := State (listening s) (scrollY s) (scrolled s) t' in
      (* the handler ran if func was called *)
      if (List.length (Debounce.calls (timers s))
          <? List.length (Debounce.calls t'))%nat
      then handleScrollBody s' else s'
  end.

Definition run (es : list event) (s : state) : state := fold_left step es s.

(** Scrolling that goes on: offsets that follow each other by less than
    [wait] ms, given as (gap, offset). *)
Fixpoint scrolling (rest : list (N * Q)) : list event :=
  match rest with
  | [] => []
  | (gap, y) :: rest' => Wait gap :: Scroll y :: scrolling rest'
  end.

Definition last_offset (first : Q) (rest : list (N * Q)) : Q :=
  List.last (List.map snd rest) first.

End HeaderScroll.

(** ** Keyboard navigation enhancement *)

Module KeyboardNav.

Local Open Scope string_scope.

(** A [.service-card], [.testimonial-card] or [.team-member] element. *)
Record card := Card {
  hasInteractive : bool;        (* card.querySelector('a, button, input,
                                   textarea, select') finds an element *)
  tabindex : option string      (* the tabindex attribute *)
}.

(** The body of [cards.forEach]. *)
Definition enhanceCard (c : card) : card :=
  if hasInteractive c then c else Card (hasInteractive c) (Some "0").

Definition enhanceCards (cards : list card) : list card :=
  List.map enhanceCard cards.

(** A keydown event, as far as the listener reads it. *)
Record keyEvent := KeyEvent {
  altKey : bool;
  key : string
}.

(** Which of the elements the listener looks up are in the document. *)
Record document := Document {
  home : bool;                  (* document.querySelector('#home') *)
  contact : bool;               (* document.querySelector('#contact') *)
  nameField : bool              (* document.querySelector('#name') *)
}.

(** What a run of the listener has done. *)
Record effects := Effects {
  defaultPrevented : bool;      (* e.preventDefault() was called *)
  scrolledTo : list string;     (* sections scrolled into view, smoothly *)
  focusTimers : list N          (* delays of the timers that will focus the
                                   first form field *)
}.

Definition nothing : effects := Effects false [] [].

(** [if (e.altKey && e.key === 'h') { ... }] *)
Definition altH (doc : document) (e : keyEvent) (fx : effects) : effects :=
  if altKey e && String.eqb (key e) "h" then
    Effects true
      (if home doc then scrolledTo fx ++ ["home"] else scrolledTo fx)
      (focusTimers fx)
  else fx.

(** [if (e.altKey && e.key === 'c') { ... }] *)
Definition altC (doc : document) (e : keyEvent) (fx : effects) : effects :=
  if altKey e && String.eqb (key e) "c" then
    if contact doc then
      Effects true (scrolledTo fx ++ ["contact"]) (focusTimers fx ++ [500%N])
    else Effects true (scrolledTo fx) (focusTimers fx)
  else fx.

(** The document keydown listener of [initKeyboardNavigation]. *)
Definition onKeydown (doc : document) (e : keyEvent) : effects :=
  altC doc e (altH doc e nothing).

(** The timer set by Alt+C runs: the element it focuses, if any. *)
Definition focusFirstField (doc : document) : option string :=
  if nameField doc then Some "name" else None.

End KeyboardNav.

(** ** Auxiliary notions for the form *)

Module FormAux.
Import JsString Form.

(** A string of whitespace only. *)
Definition blank (s : JsString.t) : Prop :=
  List.Forall (fun c => is_space c = true) s.

(** The field is valid on its own. *)
Definition valid (f : field) : bool := fst (validate f).

(** The field with the [aria-invalid] attribute [validateField] gives it. *)
Definition mark (f : field) : field :=
  set_aria_invalid (string_of_bool (negb (valid f))) f.

(** What neither validation nor typing nor [form.reset()] changes in a
    control: its id, type, required attribute and default value. *)
Definition control (f : field) : string * string * bool * JsString.t :=
  (f_id f, f_type f, f_required f, f_default f).

End FormAux.

(** ** Auxiliary notions for the debounce wrapper *)

Module DebounceAux.
Import Debounce.

Section Expected.
Variable A : Type.
Variable wait : N.

(** The calls of [func] to expect when no call of the wrapper is dropped:
    each one [wait] ms after its call of the wrapper, which happened at time
    [t] for the first and [gap] ms after the one before for the others. *)
Fixpoint due_times (t : N) (first : A) (rest : list (N * A)) : list (N * A) :=
  (t + wait, first) ::
  match rest with
  | [] => []
  | (gap, args) :: rest' => due_times (t + gap) args rest'
  end.

(** How often the wrapper is called in a sequence of events. *)
Fixpoint invocations (es : list (event A)) : nat :=
  match es with
  | [] => O
  | Invoke _ :: es' => S (invocations es')
  | _ :: es' => invocations es'
  end.

(** Calls made plus timers pending. *)
Definition load (s : state A) : nat :=
  (List.length (calls s) + List.length (pending s))%nat.

End Expected.

Arguments due_times {A} wait t first rest.
Arguments invocations {A} es.
Arguments load {A} s.

End DebounceAux.

(** ** The document around a smooth-scroll click *)

Module SmoothScrollDom.
Import SmoothScroll.

Local Open Scope string_scope.

(** An element of the document; its position in the document is its
    identity. *)
Record element := Element {
  el_id : string;           (* element.id *)
  el_focusable : bool       (* focus() can move the focus to it: a link, a
                               form control, an element with a tabindex *)
}.

(** Some element has the id that the fragment [href] names. *)
Definition targetExists (els : list element) (href : string) : Prop :=
  exists n e, els !! n = Some e /\ href = "#" ++ el_id e.

(** [element.focus(...)]: the focus moves to a focusable element and stays
    where it is otherwise. *)
Definition focusCall (els : list element) (active : option node)
    (call : node * bool) : option node :=
  match els !! fst call with
  | Some e => if el_focusable e then Some (fst call) else active
  | None => active
  end.

(** [document.activeElement] after the calls of focus, from [before]. *)
Definition activeElement (els : list element) (before : option node)
    (calls : list (node * bool)) : option node :=
  fold_left (focusCall els) calls before.

(** The fragment the address bar shows: the current history entry. *)
Definition fragment (h : history) : option string := entries h !! index h.

(** The elements of [sample_document]: the navigation link, which has the
    focus when it is clicked, and the section [about], which has no
    tabindex. *)
Definition sample_elements : list element :=
  [Element "" true; Element "about" false].

(** A document whose section has the id [1st]: [#1st] is no selector (an
    identifier does not start with a digit), [querySelector] throws. *)
Definition numbered_elements : list element := [Element "1st" true].

Definition numbered_document (selector : string) : query_result :=
  if String.eqb selector "#1st" then SyntaxError else Null.

End SmoothScrollDom.

(** ** The validation rules on the value as typed *)

Module FormSpecRaw.
Import JsString Email Form.

Local Open Scope string_scope.

(** Rule 2 of the specification read on the value as typed: email-typed,
    value non-empty, value fails the pattern. *)
Definition raw_rule_email (f : field) : Prop :=
  f_type f = "email" /\ f_value f <> [] /\ isValidEmail (f_value f) = false.

(** Rule 3 read on the value as typed: the message field, value non-empty,
    trimmed length below 10. *)
Definition raw_rule_message (f : field) : Prop :=
  f_id f = "message" /\ f_value f <> [] /\
  (List.length (trim (f_value f)) < 10)%nat.

(** Optional fields that hold three spaces. *)
Definition spaces_message : field :=
  Field "message" "textarea" false (lit "   ") [] None.

Definition spaces_email : field :=
  Field "email" "email" false (lit "   ") [] None.

End FormSpecRaw.

(** * Properties *)

(** ** Lists *)

Module ListFacts.

Lemma last_cons {A} (x d : A) l : List.last (x :: l) d = List.last l x.
Proof.
  revert x d. induction l as [|y l IH]; intros x d; [reflexivity|].
  change (List.last (x :: y :: l) d) with (List.last (y :: l) d).
  now rewrite !IH.
Qed.

Lemma map_insert_same {A B} (h : A -> B) (l : list A) : forall i x y,
  l !! i = Some x -> h y = h x -> List.map h (<[i := y]> l) = List.map h l.
Proof.
  induction l as [|a l IH]; intros i x y Hx Hy; [reflexivity|].
  destruct i as [|i]; simpl in *.
  - injection Hx as ->. now rewrite Hy.
  - f_equal. now apply (IH i x).
Qed.

End ListFacts.

(** ** Facts about the regular-expression matcher *)

Module RegexFacts.
Import Regex.

Lemma cat_inv r1 r2 s :
  Matches (Cat r1 r2) s ->
  exists s1 s2, s = s1 ++ s2 /\ Matches r1 s1 /\ Matches r2 s2.
Proof. intros H; inversion H; subst; eauto. Qed.

Lemma alt_inv r1 r2 s : Matches (Alt r1 r2) s -> Matches r1 s \/ Matches r2 s.
Proof. intros H; inversion H; subst; eauto. Qed.

Lemma plus_inv r s :
  Matches (Plus r) s ->
  exists s1 s2, s = s1 ++ s2 /\ Matches r s1 /\ Matches (Star r) s2.
Proof. intros H; inversion H; subst; eauto. Qed.

Lemma cat_intro r1 r2 s s1 s2 :
  s = s1 ++ s2 -> Matches r1 s1 -> Matches r2 s2 -> Matches (Cat r1 r2) s.
Proof. intros ->; now constructor. Qed.

Lemma nullable_spec r : nullable r = true <-> Matches r [].
Proof.
  induction r; simpl; split; intros H; try discriminate; try reflexivity;
    try (inversion H; fail); try (constructor; fail).
  - apply andb_prop in H as [H1 H2].
    apply (cat_intro _ _ _ [] []); tauto.
  - apply cat_inv in H as (s1 & s2 & E & M1 & M2).
    symmetry in E. apply app_eq_nil in E as [-> ->].
    apply andb_true_intro; tauto.
  - apply orb_prop in H as [H|H]; [apply MAltL|apply MAltR]; tauto.
  - apply orb_true_intro. apply alt_inv in H. tauto.
  - apply (MPlus _ [] []); [tauto|constructor].
  - apply plus_inv in H as (s1 & s2 & E & M1 & M2).
    symmetry in E. apply app_eq_nil in E as [-> ->]. tauto.
Qed.

(** Inversion of a starred match whose string starts with [c]: the first
    non-empty iteration starts with [c]. *)
Lemma star_cons_inv r c s :
  Matches (Star r) (c :: s) ->
  exists s1 s2, s = s1 ++ s2 /\ Matches r (c :: s1) /\ Matches (Star r) s2.
Proof.
  intros H. remember (Star r) as r' eqn:Er. remember (c :: s) as w eqn:Ew.
  revert Er Ew.
  induction H as [| | | | | | |r0 s1 s2 M1 _ M2 IH2|]; intros Er Ew;
    try discriminate.
  injection Er as ->.
  destruct s1 as [|c1 s1]; simpl in Ew.
  - apply IH2; auto.
  - injection Ew as E1 E2; subst. eauto.
Qed.

Lemma deriv_spec r : forall c s, Matches (deriv c r) s <-> Matches r (c :: s).
Proof.
  induction r as [| |d|items|r1 IHr1 r2 IHr2|r1 IHr1 r2 IHr2|r IHr|r IHr];
    intros c s; simpl.
  - split; intros H; inversion H.
  - split; intros H; inversion H.
  - destruct (N.eqb_spec c d) as [->|Hne]; split; intros H; inversion H; subst;
      solve [constructor | congruence].
  - destruct (neg_class_has items c) eqn:E; split; intros H; inversion H; subst;
      solve [now constructor | congruence].
  - destruct (nullable r1) eqn:En; split; intros H.
    + apply alt_inv in H as [M|M].
      * apply cat_inv in M as (s1 & s2 & -> & M1 & M2).
        apply IHr1 in M1. now apply (cat_intro _ _ _ (c :: s1) s2).
      * apply IHr2 in M.
        apply (cat_intro _ _ _ [] (c :: s)); [reflexivity| |assumption].
        now apply nullable_spec.
    + apply cat_inv in H as (s1 & s2 & E & M1 & M2).
      destruct s1 as [|c1 s1]; simpl in E.
      * subst s2. apply MAltR. now apply IHr2.
      * injection E as E1 E2; subst. apply MAltL.
        constructor; [now apply IHr1|assumption].
    + apply cat_inv in H as (s1 & s2 & -> & M1 & M2).
      apply IHr1 in M1. now apply (cat_intro _ _ _ (c :: s1) s2).
    + apply cat_inv in H as (s1 & s2 & E & M1 & M2).
      destruct s1 as [|c1 s1]; simpl in E.
      * apply nullable_spec in M1. congruence.
      * injection E as E1 E2; subst. constructor; [now apply IHr1|assumption].
  - split; intros H; apply alt_inv in H as [M|M];
      solve [apply MAltL; now apply IHr1 | apply MAltR; now apply IHr2].
  - split; intros H.
    + apply cat_inv in H as (s1 & s2 & -> & M1 & M2).
      apply IHr in M1. now apply (MStarS _ (c :: s1) s2).
    + apply star_cons_inv in H as (s1 & s2 & -> & M1 & M2).
      constructor; [now apply IHr|assumption].
  - split; intros H.
    + apply cat_inv in H as (s1 & s2 & -> & M1 & M2).
      apply IHr in M1. now apply (MPlus _ (c :: s1) s2).
    + apply plus_inv in H as (s1 & s2 & E & M1 & M2).
      destruct s1 as [|c1 s1]; simpl in E.
      * subst s2. apply star_cons_inv in M2 as (s1 & s2 & -> & M1' & M2').
        constructor; [now apply IHr|assumption].
      * injection E as E1 E2; subst. constructor; [now apply IHr|assumption].
Qed.

(** The matcher decides the declarative semantics. *)
Lemma matches_spec s : forall r, matches r s = true <-> Matches r s.
Proof.
  induction s as [|c s IH]; intros r; simpl.
  - apply nullable_spec.
  - rewrite IH. apply deriv_spec.
Qed.

End RegexFacts.

(** ** Facts about [isValidEmail] *)

Module EmailFacts.
Import Regex RegexFacts Email.

Lemma notSpaceAt_plain c :
  neg_class_has [ISpace; IChar at_sign] c = true <-> plain c.
Proof.
  unfold neg_class_has, plain. simpl. rewrite orb_false_r.
  rewrite negb_true_iff, orb_false_iff, N.eqb_neq. tauto.
Qed.

Lemma star_class_inv r s :
  Matches r s -> r = Star notSpaceAt -> Forall plain s.
Proof.
  induction 1 as [| | | | | | |r0 s1 s2 M1 _ M2 IH2|]; intros E;
    try discriminate.
  - constructor.
  - injection E as ->. apply Forall_app; split; [|now apply IH2].
    inversion M1; subst. constructor; [now apply notSpaceAt_plain|constructor].
Qed.

Lemma star_class s : Matches (Star notSpaceAt) s <-> Forall plain s.
Proof.
  split.
  - intros H. now apply (star_class_inv _ _ H).
  - induction 1 as [|c s Hc _ IH]; [constructor|].
    apply (MStarS _ [c] s); [|assumption].
    constructor. now apply notSpaceAt_plain.
Qed.

Lemma plus_class s :
  Matches (Plus notSpaceAt) s <-> s <> [] /\ Forall plain s.
Proof.
  split.
  - intros H. apply plus_inv in H as (s1 & s2 & -> & M1 & M2).
    inversion M1; subst. split; [discriminate|].
    constructor; [now apply notSpaceAt_plain|now apply star_class].
  - intros [Hne H]. destruct s as [|c s]; [congruence|].
    inversion H; subst.
    apply (MPlus _ [c] s); [|now apply star_class].
    constructor. now apply notSpaceAt_plain.
Qed.

Lemma lit_inv c s : Matches (Lit c) s -> s = [c].
Proof. intros H; now inversion H. Qed.

(** The strings accepted by [isValidEmail], as a decomposition. *)
Lemma isValidEmail_shape s :
  isValidEmail s = true <->
  exists l d1 d2,
    s = l ++ [at_sign] ++ d1 ++ [dot] ++ d2 /\
    l <> [] /\ d1 <> [] /\ d2 <> [] /\
    Forall plain l /\ Forall plain d1 /\ Forall plain d2.
Proof.
  unfold isValidEmail. rewrite matches_spec. unfold emailRegex. split.
  - intros H.
    apply cat_inv in H as (l & s1 & -> & Ml & H).
    apply cat_inv in H as (a & s2 & -> & Ma & H).
    apply cat_inv in H as (d1 & s3 & -> & Md1 & H).
    apply cat_inv in H as (p & d2 & -> & Mp & Md2).
    apply lit_inv in Ma as ->. apply lit_inv in Mp as ->.
    apply plus_class in Ml as [? ?]. apply plus_class in Md1 as [? ?].
    apply plus_class in Md2 as [? ?].
    exists l, d1, d2. tauto.
  - intros (l & d1 & d2 & -> & Hl & Hd1 & Hd2 & Fl & Fd1 & Fd2).
    repeat (apply MCat); try constructor; apply plus_class; tauto.
Qed.

Example trim_inner_space_kept :
  JsString.trim (JsString.lit "  a b  ") = JsString.lit "a b".
Proof. reflexivity. Qed.

Example trim_whitespace_only : JsString.trim [9; 160; 8232; 65279] = [].
Proof. reflexivity. Qed.

Example isValidEmail_examples :
  isValidEmail (JsString.lit "a@b.co") = true /\
  isValidEmail (JsString.lit "first.last@mail.example.org") = true /\
  isValidEmail (JsString.lit "not-an-email") = false /\
  isValidEmail (JsString.lit "a@b") = false /\
  isValidEmail (JsString.lit "a@.b") = false /\
  isValidEmail (JsString.lit "a@b@c.d") = false /\
  isValidEmail (JsString.lit "a b@c.d") = false.
Proof. repeat split. Qed.

End EmailFacts.

(** ** Facts about form validation and submission *)

Module FormFacts.
Import JsString Email Form FormSpec FormSpecRaw FormExamples FormAux EmailFacts.

Local Open Scope string_scope.

Lemma truthy_false v : truthy v = false <-> v = [].
Proof. destruct v; simpl; split; congruence. Qed.

Lemma truthy_true v : truthy v = true <-> v <> [].
Proof. destruct v; simpl; split; congruence. Qed.

(** *** The three guards of [validateField] decide the three rules *)

Lemma guard_required f :
  f_required f && negb (truthy (trim (f_value f))) = true <-> rule_required f.
Proof.
  unfold rule_required, value.
  rewrite andb_true_iff, negb_true_iff, truthy_false. tauto.
Qed.

Lemma guard_email f :
  String.eqb (f_type f) "email" && truthy (trim (f_value f))
    && negb (isValidEmail (trim (f_value f))) = true <-> rule_email f.
Proof.
  unfold rule_email, value.
  rewrite !andb_true_iff, negb_true_iff, truthy_true, String.eqb_eq. tauto.
Qed.

Lemma guard_message f :
  String.eqb (f_id f) "message" && truthy (trim (f_value f))
    && (N.of_nat (List.length (trim (f_value f))) <? 10)%N = true
  <-> rule_message f.
Proof.
  unfold rule_message, value.
  rewrite !andb_true_iff, truthy_true, String.eqb_eq, N.ltb_lt.
  split; intros H; [destruct H as [[? ?] ?]|destruct H as (? & ? & ?)];
    repeat split; auto; lia.
Qed.

Ltac guards f :=
  unfold validate;
  pose proof (guard_required f) as G1;
  pose proof (guard_email f) as G2;
  pose proof (guard_message f) as G3;
  destruct (f_required f && negb (truthy (trim (f_value f))));
  [|destruct (String.eqb (f_type f) "email" && truthy (trim (f_value f))
              && negb (isValidEmail (trim (f_value f))));
    [|destruct (String.eqb (f_id f) "message" && truthy (trim (f_value f))
                && (N.of_nat (List.length (trim (f_value f))) <? 10)%N)]].

Lemma validate_required f :
  rule_required f -> validate f = (false, "This field is required").
Proof. intros R1. guards f; try reflexivity; apply G1 in R1; discriminate. Qed.

Lemma validate_email f :
  ~ rule_required f -> rule_email f ->
  validate f = (false, "Please enter a valid email address").
Proof.
  intros N1 R2. guards f; try reflexivity.
  - destruct N1; now apply G1.
  - apply G2 in R2; discriminate.
  - apply G2 in R2; discriminate.
Qed.

Lemma validate_message f :
  ~ rule_required f -> ~ rule_email f -> rule_message f ->
  validate f = (false, "Message must be at least 10 characters").
Proof.
  intros N1 N2 R3. guards f; try reflexivity.
  - destruct N1; now apply G1.
  - destruct N2; now apply G2.
  - apply G3 in R3; discriminate.
Qed.

Lemma validate_valid f :
  ~ rule_required f -> ~ rule_email f -> ~ rule_message f ->
  validate f = (true, "").
Proof.
  intros N1 N2 N3. guards f; try reflexivity.
  - destruct N1; now apply G1.
  - destruct N2; now apply G2.
  - destruct N3; now apply G3.
Qed.

(** *** The UI update of [validateField] *)

Lemma validateField_marked d i f :
  fields d !! i = Some f ->
  fst (validateField i d) = fst (validate f) /\
  marked i f d (snd (validateField i d)) (fst (validate f)) (snd (validate f)).
Proof.
  intros Hf. unfold validateField, marked. rewrite Hf.
  destruct (validate f) as [ok msg]. simpl. split; [reflexivity|].
  unfold set_error_text. simpl. split.
  - destruct (errors d !! (f_id f ++ "-error")); simpl;
      apply list_lookup_insert_eq; now apply lookup_lt_Some in Hf.
  - intros [t Ht]. rewrite Ht. simpl. apply lookup_insert_eq.
Qed.

(** *** Precedence of the rules *)

(** An optional message field, and an optional email field, that hold three
    spaces: the value as typed is not empty, its trimmed length is below 10
    and it fails the email pattern, yet the field is marked valid, because
    the code tests the trimmed value for emptiness.  (A textarea hands out
    its value as typed; an email input of a browser hands it out already
    stripped of surrounding whitespace, so the email case needs a value that
    reaches [validateField] as typed.) *)
Lemma blank_optional_fields_valid :
  (~ rule_required spaces_message /\ raw_rule_message spaces_message /\
   fst (validateField 0 (one_field spaces_message send)) = true /\
   errors (snd (validateField 0 (one_field spaces_message send)))
     !! "message-error" = Some "") /\
  (~ rule_required spaces_email /\ raw_rule_email spaces_email /\
   fst (validateField 0 (one_field spaces_email send)) = true /\
   errors (snd (validateField 0 (one_field spaces_email send)))
     !! "email-error" = Some "").
Proof.
  split; (split; [intros [H _]; discriminate H|]);
    (split; [|split; reflexivity]).
  - split; [reflexivity|]. split; [discriminate|]. vm_compute. lia.
  - split; [reflexivity|]. split; [discriminate|reflexivity].
Qed.

(** C2 (amended). For every form field, [validateField] applies the rules
    in this precedence, first match wins, each on the value after trimming:
    (1) required and trimmed value empty (so also a value of whitespace
    only) gives invalid with "This field is required"; (2) email-typed with
    non-empty trimmed value failing the email pattern gives invalid with
    "Please enter a valid email address"; (3) the message field with
    non-empty trimmed value of length below 10 gives invalid with "Message
    must be at least 10 characters"; (4) otherwise the field is valid and
    the message is cleared. *)
Theorem validateField_precedence d i f :
  fields d !! i = Some f ->
  exists msg,
    marked i f d (snd (validateField i d)) (fst (validateField i d)) msg /\
    (rule_required f ->
     fst (validateField i d) = false /\ msg = "This field is required") /\
    (~ rule_required f -> rule_email f ->
     fst (validateField i d) = false /\
     msg = "Please enter a valid email address") /\
    (~ rule_required f -> ~ rule_email f -> rule_message f ->
     fst (validateField i d) = false /\
     msg = "Message must be at least 10 characters") /\
    (~ rule_required f -> ~ rule_email f -> ~ rule_message f ->
     fst (validateField i d) = true /\ msg = "").
Proof.
  intros Hf. destruct (validateField_marked d i f Hf) as [E M]. rewrite E.
  exists (snd (validate f)). split; [exact M|]. repeat split.
  - now rewrite validate_required.
  - now rewrite validate_required.
  - now rewrite validate_email.
  - now rewrite validate_email.
  - now rewrite validate_message.
  - now rewrite validate_message.
  - now rewrite validate_valid.
  - now rewrite validate_valid.
Qed.

Lemma validateField_precedence_witness :
  fst (validateField 0 (one_field blank_name send)) = false /\
  fst (validateField 0 (one_field bad_email send)) = false /\
  fst (validateField 0 (one_field message9 send)) = false /\
  fst (validateField 0 (one_field message10 send)) = true.
Proof.
  split; [|split; [|split]].
  - destruct (validateField_precedence (one_field blank_name send) 0
                blank_name eq_refl) as (msg & _ & H1 & _).
    apply H1. split; reflexivity.
  - destruct (validateField_precedence (one_field bad_email send) 0
                bad_email eq_refl) as (msg & _ & _ & H2 & _).
    apply H2.
    + intros [_ H]; discriminate H.
    + split; [reflexivity|split; [|reflexivity]].
      intros H; vm_compute in H; discriminate H.
  - destruct (validateField_precedence (one_field message9 send) 0
                message9 eq_refl) as (msg & _ & _ & _ & H3 & _).
    apply H3.
    + intros [_ H]; discriminate H.
    + intros [H _]; discriminate H.
    + split; [reflexivity|split; [|vm_compute; lia]].
      intros H; vm_compute in H; discriminate H.
  - destruct (validateField_precedence (one_field message10 send) 0
                message10 eq_refl) as (msg & _ & _ & _ & _ & H4).
    apply H4.
    + intros [_ H]; discriminate H.
    + intros [H _]; discriminate H.
    + intros (_ & _ & H); vm_compute in H; lia.
Defined.

(** *** The email rule *)

Lemma is_space_plain c : plain c -> is_space c = false.
Proof. now intros [? _]. Qed.

Lemma plain_no_at l : Forall plain l -> ~ In at_sign l.
Proof.
  intros H Hin. apply List.Forall_forall with (x := at_sign) in H; auto.
  now destruct H.
Qed.

Lemma plain_intro l :
  Forall (fun c => is_space c = false) l -> ~ In at_sign l -> Forall plain l.
Proof.
  intros H Hn. apply List.Forall_forall. intros c Hc. split.
  - now apply List.Forall_forall with (x := c) in H.
  - intros ->. contradiction.
Qed.

Lemma isValidEmail_email_shape s : isValidEmail s = true <-> email_shape s.
Proof.
  rewrite isValidEmail_shape. unfold email_shape. split.
  - intros (l & d1 & d2 & -> & Hl & Hd1 & Hd2 & Fl & Fd1 & Fd2). split.
    + rewrite !Forall_app. repeat split;
        try (eapply Forall_impl; [eassumption|apply is_space_plain]);
        repeat constructor.
    + exists l, d1, d2. repeat split; auto using plain_no_at.
  - intros (Hs & l & d1 & d2 & -> & Nl & Nd1 & Nd2 & Hl & Hd1 & Hd2).
    rewrite !Forall_app in Hs. destruct Hs as (Sl & _ & Sd1 & _ & Sd2).
    exists l, d1, d2. repeat split; auto using plain_intro.
Qed.

Lemma validate_not_an_email req dflt inv :
  validate (Field "email" "email" req (lit "not-an-email") dflt inv)
  = (false, "Please enter a valid email address").
Proof. destruct req; reflexivity. Qed.

Lemma validate_a_b_co req dflt inv :
  validate (Field "email" "email" req (lit "a@b.co") dflt inv) = (true, "").
Proof. destruct req; reflexivity. Qed.

(** The shape of the specification admits an address that ends in the dot,
    which the pattern rejects. *)
Lemma spec_email_shape_too_wide :
  spec_email_shape (lit "a@b.") /\ isValidEmail (lit "a@b.") = false.
Proof.
  split; [split|reflexivity].
  - repeat constructor.
  - exists (lit "a"), (lit "b."). repeat split; try discriminate.
    + simpl. intros [H|[]]; discriminate H.
    + simpl. intros [H|[H|[]]]; discriminate H.
    + simpl. right; left; reflexivity.
Qed.

(** C3 (amended). On the [email] field, the value "not-an-email" is marked
    invalid with the email-format message and the value "a@b.co" is marked
    valid.  In general [isValidEmail] accepts exactly the strings with no
    whitespace and exactly one [@] that have at least one code unit before
    the [@] and, after it, a [.] with at least one code unit between the
    [@] and that dot and at least one code unit after that dot. *)
Theorem isValidEmail_accepts :
  (forall d i req dflt inv,
     fields d !! i
     = Some (Field "email" "email" req (lit "not-an-email") dflt inv) ->
     fst (validateField i d) = false /\
     marked i (Field "email" "email" req (lit "not-an-email") dflt inv) d
       (snd (validateField i d)) false "Please enter a valid email address") /\
  (forall d i req dflt inv,
     fields d !! i = Some (Field "email" "email" req (lit "a@b.co") dflt inv) ->
     fst (validateField i d) = true /\
     marked i (Field "email" "email" req (lit "a@b.co") dflt inv) d
       (snd (validateField i d)) true "") /\
  (forall s, isValidEmail s = true <-> email_shape s).
Proof.
  split; [|split].
  - intros d i req dflt inv Hf.
    destruct (validateField_marked d i _ Hf) as [E M].
    rewrite validate_not_an_email in E, M. auto.
  - intros d i req dflt inv Hf.
    destruct (validateField_marked d i _ Hf) as [E M].
    rewrite validate_a_b_co in E, M. auto.
  - apply isValidEmail_email_shape.
Qed.

Lemma isValidEmail_accepts_witness :
  fst (validateField 0 (one_field bad_email send)) = false /\
  fst (validateField 0 (one_field good_email send)) = true.
Proof.
  destruct isValidEmail_accepts as (Hbad & Hgood & _). split.
  - apply (Hbad (one_field bad_email send) 0%nat true [] None eq_refl).
  - apply (Hgood (one_field good_email send) 0%nat true [] None eq_refl).
Defined.

(** *** The message rule *)

(** An email-typed input with the id [message] and a value of trimmed
    length 10 is marked invalid: the email rule comes first. *)
Lemma email_typed_message_invalid :
  f_id email_typed_message = "message" /\
  List.length (value email_typed_message) = 10%nat /\
  fst (validateField 0 (one_field email_typed_message send)) = false /\
  errors (snd (validateField 0 (one_field email_typed_message send)))
    !! "message-error" = Some "Please enter a valid email address".
Proof. repeat split. Qed.

(** C4 (amended). For the message field, unless the email rule applies first
    (the field is email-typed and its value fails the email pattern), a
    value whose trimmed length is 9 is marked invalid with the
    minimum-length message and a value whose trimmed length is 10 is marked
    valid. *)
Theorem message_length_boundary d i f :
  fields d !! i = Some f ->
  f_id f = "message" ->
  ~ rule_email f ->
  (List.length (value f) = 9%nat ->
   fst (validateField i d) = false /\
   marked i f d (snd (validateField i d)) false
     "Message must be at least 10 characters") /\
  (List.length (value f) = 10%nat ->
   fst (validateField i d) = true /\
   marked i f d (snd (validateField i d)) true "").
Proof.
  intros Hf Hid N2. destruct (validateField_marked d i f Hf) as [E M].
  assert (Hne : forall n, List.length (value f) = S n -> ~ rule_required f).
  { intros n Hn [_ Hv]. rewrite Hv in Hn. discriminate Hn. }
  split; intros Hlen.
  - assert (R3 : rule_message f).
    { split; [assumption|split; [|lia]].
      intros Hv. rewrite Hv in Hlen. discriminate Hlen. }
    rewrite (validate_message f (Hne _ Hlen) N2 R3) in E, M. auto.
  - assert (N3 : ~ rule_message f) by (intros (_ & _ & Hlt); lia).
    rewrite (validate_valid f (Hne _ Hlen) N2 N3) in E, M. auto.
Qed.

Lemma message_length_boundary_witness :
  fst (validateField 0 (one_field message9 send)) = false /\
  fst (validateField 0 (one_field message10 send)) = true.
Proof.
  split.
  - apply (message_length_boundary (one_field message9 send) 0%nat message9
             eq_refl eq_refl).
    + intros [H _]; discriminate H.
    + reflexivity.
  - apply (message_length_boundary (one_field message10 send) 0%nat message10
             eq_refl eq_refl).
    + intros [H _]; discriminate H.
    + reflexivity.
Defined.

(** *** Submission *)

Lemma same_frame_refl d : same_frame d d.
Proof. now repeat split. Qed.

Lemma same_frame_trans d1 d2 d3 :
  same_frame d1 d2 -> same_frame d2 d3 -> same_frame d1 d3.
Proof. unfold same_frame. intros (-> & -> & ->) (-> & -> & ->). auto. Qed.

Lemma set_error_text_frame id text d : same_frame d (set_error_text id text d).
Proof.
  unfold set_error_text. destruct (errors d !! (id ++ "-error"));
    now repeat split.
Qed.

Lemma validateField_frame i d : same_frame d (snd (validateField i d)).
Proof.
  unfold validateField. destruct (fields d !! i) as [f|];
    [|apply same_frame_refl].
  destruct (validate f) as [ok msg]. simpl.
  eapply same_frame_trans; [|apply set_error_text_frame]. now repeat split.
Qed.

Lemma onInput_frame i d : same_frame d (onInput i d).
Proof.
  unfold onInput. destruct (fields d !! i) as [f|]; [|apply same_frame_refl].
  destruct (decide (f_aria_invalid f = Some "true")); [|apply same_frame_refl].
  eapply same_frame_trans; [apply (set_error_text_frame (f_id f) "")|].
  now repeat split.
Qed.

Lemma field_step_frame d e : same_frame d (field_step d e).
Proof.
  destruct e as [i v|i]; simpl.
  - destruct (fields d !! i) as [f|]; [|apply same_frame_refl].
    eapply same_frame_trans; [|apply onInput_frame]. now repeat split.
  - apply validateField_frame.
Qed.

Lemma field_steps_frame es : forall d, same_frame d (fold_left field_step es d).
Proof.
  induction es as [|e es IH]; intros d; simpl; [apply same_frame_refl|].
  eapply same_frame_trans; [apply field_step_frame|apply IH].
Qed.

Lemma validateAll_frame n : forall i d, same_frame d (snd (validateAll n i d)).
Proof.
  induction n as [|n IH]; intros i d; simpl; [apply same_frame_refl|].
  pose proof (validateField_frame i d) as F1.
  destruct (validateField i d) as [ok d1]. simpl in F1.
  pose proof (IH (S i) d1) as F2.
  destruct (validateAll n (S i) d1) as [rest d2]. simpl in *.
  eapply same_frame_trans; eassumption.
Qed.

Lemma handleFormSubmissionAwait_button awaited during d b :
  submitButton d = Some b ->
  submitButton (handleFormSubmissionAwait awaited during d)
  = Some (Button (b_text b) false (Some "false")).
Proof.
  intros Hb. unfold handleFormSubmissionAwait. rewrite Hb. reflexivity.
Qed.

Lemma simulatedCall_fulfilled : settle simulatedCall = Some (Fulfilled, 1500%N).
Proof. reflexivity. Qed.

(** A fully valid form with a submit control reaches the body of
    [handleFormSubmission] with the promise fulfilled. *)
Lemma onSubmit_valid during d :
  fst (validateAll (List.length (fields d)) 0 d) = true ->
  onSubmit during d
  = Some (handleFormSubmissionAwait Fulfilled during
            (snd (validateAll (List.length (fields d)) 0 d))).
Proof.
  unfold onSubmit. destruct (validateAll _ _ d) as [ok d1]. simpl.
  intros ->. reflexivity.
Qed.

(** C5. For every submission of a fully valid form, whether the awaited
    submission is fulfilled or rejected, the submit control is afterwards
    enabled again, its busy flag is cleared and its label is the text it
    had before the submission. *)
Theorem submit_control_restored :
  (forall awaited during d b,
     submitButton d = Some b ->
     submitButton (handleFormSubmissionAwait awaited during d)
     = Some (Button (b_text b) false (Some "false"))) /\
  (forall during d b,
     fst (validateAll (List.length (fields d)) 0 d) = true ->
     submitButton d = Some b ->
     exists d', onSubmit during d = Some d' /\
       submitButton d' = Some (Button (b_text b) false (Some "false"))).
Proof.
  split.
  - apply handleFormSubmissionAwait_button.
  - intros during d b Hv Hb. rewrite (onSubmit_valid during d Hv).
    eexists; split; [reflexivity|].
    apply handleFormSubmissionAwait_button.
    destruct (validateAll_frame (List.length (fields d)) 0 d) as (-> & _).
    assumption.
Qed.

Lemma submit_control_restored_witness :
  submitButton
    (handleFormSubmissionAwait Rejected [Typed 0 (lit "x@y.zz")]
       (one_field good_email send))
  = Some (Button "Send Message" false (Some "false")) /\
  exists d', onSubmit [Blurred 0] (one_field good_email send) = Some d' /\
    submitButton d' = Some (Button "Send Message" false (Some "false")).
Proof.
  destruct submit_control_restored as [H1 H2]. split.
  - apply (H1 Rejected [Typed 0%nat (lit "x@y.zz")]
              (one_field good_email send) (Button "Send Message" false None)
              eq_refl).
  - apply (H2 [Blurred 0%nat] (one_field good_email send)
              (Button "Send Message" false None) eq_refl eq_refl).
Defined.

Lemma reset_cleared f :
  f_value (clear_invalid (reset_field f)) = f_default (clear_invalid (reset_field f))
  /\ f_aria_invalid (clear_invalid (reset_field f)) <> Some "true".
Proof.
  unfold clear_invalid. simpl.
  destruct (f_aria_invalid f) eqn:E; simpl; [split; [reflexivity|discriminate]|].
  rewrite E. split; [reflexivity|discriminate].
Qed.

(** A fully valid form without a [button[type="submit"]]: the handler
    returns before anything is shown or reset. *)
Lemma no_submit_control_no_feedback :
  fst (validateAll (List.length (fields (one_field good_email None))) 0
         (one_field good_email None)) = true /\
  exists d', onSubmit [] (one_field good_email None) = Some d' /\
    formMessage d' = None /\
    List.map f_value (fields d') = [lit "a@b.co"] /\
    List.map f_default (fields d') = [[]].
Proof. split; [reflexivity|]. eexists. repeat split. Qed.

(** Validation and the user's typing leave the controls of the form what
    they are. *)
Lemma set_error_text_fields id text d :
  fields (set_error_text id text d) = fields d.
Proof. unfold set_error_text. now destruct (errors d !! (id ++ "-error")). Qed.

Lemma validateField_controls i d :
  List.map control (fields (snd (validateField i d)))
  = List.map control (fields d).
Proof.
  unfold validateField. destruct (fields d !! i) as [f|] eqn:Hf; [|reflexivity].
  destruct (validate f) as [ok msg]. simpl. rewrite set_error_text_fields.
  simpl. now apply (ListFacts.map_insert_same control _ i f).
Qed.

Lemma onInput_controls i d :
  List.map control (fields (onInput i d)) = List.map control (fields d).
Proof.
  unfold onInput. destruct (fields d !! i) as [f|] eqn:Hf; [|reflexivity].
  destruct (decide (f_aria_invalid f = Some "true")); [|reflexivity].
  simpl. rewrite set_error_text_fields.
  now apply (ListFacts.map_insert_same control _ i f).
Qed.

Lemma field_step_controls d e :
  List.map control (fields (field_step d e)) = List.map control (fields d).
Proof.
  destruct e as [i v|i]; simpl.
  - destruct (fields d !! i) as [f|] eqn:Hf; [|reflexivity].
    rewrite onInput_controls. simpl.
    now apply (ListFacts.map_insert_same control _ i f).
  - apply validateField_controls.
Qed.

Lemma field_steps_controls es : forall d,
  List.map control (fields (fold_left field_step es d))
  = List.map control (fields d).
Proof.
  induction es as [|e es IH]; intros d; [reflexivity|].
  simpl. now rewrite IH, field_step_controls.
Qed.

Lemma validateAll_controls n : forall i d,
  List.map control (fields (snd (validateAll n i d)))
  = List.map control (fields d).
Proof.
  induction n as [|n IH]; intros i d; [reflexivity|]. simpl.
  pose proof (validateField_controls i d) as H1.
  destruct (validateField i d) as [ok d1]. simpl in H1.
  pose proof (IH (S i) d1) as H2.
  destruct (validateAll n (S i) d1) as [rest d2]. simpl in *.
  now rewrite H2.
Qed.

Lemma reset_controls fs :
  List.map control (List.map clear_invalid (List.map reset_field fs))
  = List.map control fs /\
  List.map f_value (List.map clear_invalid (List.map reset_field fs))
  = List.map f_default fs.
Proof.
  rewrite !List.map_map. split; apply List.map_ext; intros f;
    unfold clear_invalid; simpl; now destruct (f_aria_invalid f).
Qed.

Lemma map_default_control fs :
  List.map f_default fs = List.map snd (List.map control fs).
Proof. now rewrite List.map_map. Qed.

(** C9 (amended). The simulated submission is always fulfilled, after
    1500 ms, so the [catch] block is never entered: every submission of a
    fully valid form that has a submit control ([button[type="submit"]])
    ends with the success message shown, the fields of the form, which are
    the controls they were, each back at its default value, whatever was
    typed meanwhile, and no field flagged invalid. *)
Theorem simulated_submission_succeeds :
  settle simulatedCall = Some (Fulfilled, 1500%N) /\
  forall during d b,
    fst (validateAll (List.length (fields d)) 0 d) = true ->
    submitButton d = Some b ->
    exists d', onSubmit during d = Some d' /\
      formMessage d' = Some (Message (nodes d) successText "success") /\
      List.map control (fields d') = List.map control (fields d) /\
      List.map f_value (fields d') = List.map f_default (fields d) /\
      Forall (fun f => f_value f = f_default f /\
                       f_aria_invalid f <> Some "true") (fields d').
Proof.
  split; [reflexivity|].
  intros during d b Hv Hb. rewrite (onSubmit_valid during d Hv).
  eexists; split; [reflexivity|].
  destruct (validateAll_frame (List.length (fields d)) 0 d) as (Eb & _ & En).
  pose proof (validateAll_controls (List.length (fields d)) 0 d) as Ec.
  set (d1 := snd (validateAll (List.length (fields d)) 0 d)) in *.
  unfold handleFormSubmissionAwait. rewrite Eb, Hb.
  destruct (field_steps_frame during (submitStart d1)) as (_ & _ & En2).
  pose proof (field_steps_controls during (submitStart d1)) as Ec2.
  set (d2 := fold_left field_step during (submitStart d1)) in *.
  simpl in Ec2. simpl.
  destruct (reset_controls (fields d2)) as [R1 R2].
  split; [|split; [|split]].
  - rewrite En2. simpl. now rewrite En.
  - now rewrite R1, Ec2, Ec.
  - now rewrite R2, !map_default_control, Ec2, Ec.
  - rewrite List.map_map. apply List.Forall_map.
    apply List.Forall_forall. intros f _. apply reset_cleared.
Qed.

Lemma simulated_submission_succeeds_witness :
  exists d', onSubmit [Typed 0 (lit "x@y.zz")] (one_field good_email send)
             = Some d' /\
    formMessage d' = Some (Message 0 successText "success") /\
    List.map control (fields d') = [("email", "email", true, [])] /\
    List.map f_value (fields d') = [[]] /\
    Forall (fun f => f_value f = f_default f /\
                     f_aria_invalid f <> Some "true") (fields d').
Proof.
  destruct simulated_submission_succeeds as [_ H].
  apply (H [Typed 0%nat (lit "x@y.zz")] (one_field good_email send)
           (Button "Send Message" false None) eq_refl eq_refl).
Defined.

End FormFacts.

(** ** Facts about the debounce wrapper *)

Module DebounceFacts.
Import Debounce.

Section Facts.
Context {A : Type}.
Variable wait : N.

Lemma tidy_init t0 : tidy (init A t0).
Proof. exact I. Qed.

Lemma clearTimeout_idle h (s : state A) :
  pending s = [] -> clearTimeout h s = s.
Proof.
  destruct s as [n k p o c], h as [id|]; simpl; intros ->; reflexivity.
Qed.

Lemma clearTimeout_tidy (s : state A) :
  tidy s -> pending (clearTimeout (timeout s) s) = [].
Proof.
  unfold tidy. destruct s as [n k p o c]. simpl.
  destruct p as [|t [|u p]]; intros H.
  - destruct o; reflexivity.
  - subst o. simpl. now rewrite Nat.eqb_refl.
  - destruct H.
Qed.

Lemma executedFunction_tidy args (s : state A) :
  tidy s -> tidy (executedFunction wait args s).
Proof.
  intros H. unfold executedFunction, setTimeout, tidy.
  rewrite (clearTimeout_tidy s H). reflexivity.
Qed.

(** Under [tidy], a timer that runs is the only one, so the extra
    [clearTimeout] of [later] finds nothing to clear. *)
Lemma later_same args id (s : state A) :
  tidy s -> In id (List.map (@t_id A) (pending s)) ->
  later AsWritten args (remove id s) = later Standard args (remove id s)
  /\ pending (later Standard args (remove id s)) = [].
Proof.
  unfold tidy. destruct s as [n k p o c]. simpl.
  destruct p as [|t [|u p]]; simpl; intros H Hin; try tauto.
  destruct Hin as [<-|[]]. rewrite Nat.eqb_refl. simpl.
  unfold remove. simpl. rewrite Nat.eqb_refl. simpl.
  split; [|reflexivity]. now destruct o.
Qed.

Lemma tidy_idle (s : state A) : pending s = [] -> tidy s.
Proof. unfold tidy. now intros ->. Qed.

Lemma find_id id ts (t : timer A) :
  List.find (fun t => Nat.eqb (t_id t) id) ts = Some t ->
  id = t_id t /\ In id (List.map (@t_id A) ts).
Proof.
  intros H. apply List.find_some in H as [Hin E].
  apply Nat.eqb_eq in E. subst id. split; [reflexivity|].
  now apply List.in_map.
Qed.

Lemma first_due_in target ts (t : timer A) :
  first_due target ts = Some t -> In t ts.
Proof.
  revert t. induction ts as [|u ts IH]; simpl; intros t H; [discriminate|].
  destruct (t_due u <=? target).
  - destruct (first_due target ts) as [w|].
    + destruct (earlier u w); injection H as <-; auto.
    + injection H as <-; auto.
  - auto.
Qed.

Lemma fire_same id (s : state A) :
  tidy s ->
  fire AsWritten id s = fire Standard id s /\ tidy (fire Standard id s).
Proof.
  intros H. unfold fire.
  destruct (List.find _ (pending s)) as [t|] eqn:E; [|tauto].
  destruct (t_due t <=? now s); [|tauto].
  apply find_id in E as [_ Hin].
  destruct (later_same (t_args t) id s H Hin) as [E1 E2].
  split; [assumption|now apply tidy_idle].
Qed.

Lemma set_now_tidy t (s : state A) : tidy s -> tidy (set_now t s).
Proof. now destruct s. Qed.

Lemma run_due_S fuel v target (s : state A) :
  run_due (S fuel) v target s
  = match first_due target (pending s) with
    | Some t =>
        run_due fuel v target
          (later v (t_args t)
             (remove (t_id t) (set_now (N.max (now s) (t_due t)) s)))
    | None => s
    end.
Proof. reflexivity. Qed.

Lemma run_due_same target fuel : forall s : state A,
  tidy s ->
  run_due fuel AsWritten target s = run_due fuel Standard target s
  /\ tidy (run_due fuel Standard target s).
Proof.
  induction fuel as [|fuel IH]; intros s H; [simpl; tauto|].
  rewrite !run_due_S.
  destruct (first_due target (pending s)) as [t|] eqn:E; [|tauto].
  apply first_due_in in E.
  set (s1 := set_now (N.max (now s) (t_due t)) s).
  assert (H1 : tidy s1) by now apply set_now_tidy.
  assert (Hin : In (t_id t) (List.map (@t_id A) (pending s1))).
  { destruct s; simpl in *. now apply List.in_map. }
  destruct (later_same (t_args t) (t_id t) s1 H1 Hin) as [E1 E2].
  rewrite E1. apply IH. now apply tidy_idle.
Qed.

Lemma step_same e (s : state A) :
  tidy s ->
  step wait AsWritten s e = step wait Standard s e /\
  tidy (step wait Standard s e).
Proof.
  intros H. destruct e as [args|d|id|d]; unfold step.
  - split; [reflexivity|now apply executedFunction_tidy].
  - split; [reflexivity|now apply set_now_tidy].
  - now apply fire_same.
  - destruct (run_due_same (now s + d) (List.length (pending s)) s H)
      as [E T].
    rewrite E. split; [reflexivity|now apply set_now_tidy].
Qed.

Lemma debounce_run_nil v (s : state A) : run wait v [] s = s.
Proof. reflexivity. Qed.

Lemma debounce_run_cons v e es (s : state A) :
  run wait v (e :: es) s = run wait v es (step wait v s e).
Proof. reflexivity. Qed.

Lemma run_same es : forall s : state A,
  tidy s -> run wait AsWritten es s = run wait Standard es s.
Proof.
  induction es as [|e es IH]; intros s H; [reflexivity|].
  destruct (step_same e s H) as [E T]. rewrite !debounce_run_cons, E. now apply IH.
Qed.

(** *** A burst of calls *)

Lemma last_args_cons (first : A) gap args rest :
  last_args first ((gap, args) :: rest) = last_args args rest.
Proof. unfold last_args. apply ListFacts.last_cons. Qed.

Lemma span_cons gap (args : A) rest :
  span ((gap, args) :: rest) = gap + span rest.
Proof. reflexivity. Qed.

(** The wait has not passed: the pending timer stays. *)
Lemma elapse_gap v n k id (args : A) o c gap :
  gap < wait ->
  step wait v (State n k [Timer id (n + wait) args] o c) (Elapse gap)
  = State (n + gap) k [Timer id (n + wait) args] o c.
Proof.
  intros Hg. unfold step. simpl.
  assert (E : (n + wait <=? n + gap) = false) by (apply N.leb_gt; lia).
  rewrite E. reflexivity.
Qed.

(** The wait has passed: the pending timer runs, at its due time. *)
Lemma elapse_settle v n k id (args : A) o c settle :
  wait <= settle ->
  step wait v (State n k [Timer id (n + wait) args] o c) (Elapse settle)
  = State (n + settle) k [] o (c ++ [(n + wait, args)]).
Proof.
  intros Hs. unfold step. simpl.
  assert (E : (n + wait <=? n + settle) = true) by (apply N.leb_le; lia).
  rewrite E. unfold later, remove, set_now, func, clearTimeout. simpl.
  rewrite Nat.eqb_refl. simpl.
  replace (N.max n (n + wait)) with (n + wait) by lia.
  destruct v, o; reflexivity.
Qed.

(** A call while a timer is pending replaces the timer. *)
Lemma invoke_pending n k id due (args : A) c args' :
  executedFunction wait args' (State n k [Timer id due args] (Some id) c)
  = State n (S k) [Timer k (n + wait) args'] (Some k) c.
Proof.
  unfold executedFunction, setTimeout, clearTimeout. simpl.
  rewrite Nat.eqb_refl. reflexivity.
Qed.

(** The browser runs the pending timer late, [late] ms after the call. *)
Lemma tick_fire v n k id (args : A) o c late :
  wait <= late ->
  step wait v (step wait v (State n k [Timer id (n + wait) args] o c)
                 (Tick late)) (Fire id)
  = State (n + late) k [] o (c ++ [(n + late, args)]).
Proof.
  intros Hl. unfold step, fire, set_now. simpl. rewrite Nat.eqb_refl.
  assert (E : (n + wait <=? n + late) = true) by (apply N.leb_le; lia).
  cbn [t_due t_args]. rewrite E.
  unfold later, remove, func, clearTimeout. simpl.
  rewrite Nat.eqb_refl. simpl. destruct v, o; reflexivity.
Qed.

(** After a burst the timer of its last call is the one pending. *)
Lemma burst_then v rest : forall tail n id (args : A) c,
  Forall (fun g => fst g < wait) rest ->
  run wait v (burst_events rest ++ tail)
    (State n (S id) [Timer id (n + wait) args] (Some id) c)
  = run wait v tail
      (State (n + span rest) (S (id + List.length rest))
         [Timer (id + List.length rest)%nat (n + span rest + wait)
            (last_args args rest)]
         (Some (id + List.length rest)%nat) c).
Proof.
  induction rest as [|[gap args'] rest IH]; intros tail n id args c Hr.
  - change (burst_events [] ++ tail) with tail.
    change (span (@nil (N * A))) with 0. simpl List.length.
    now rewrite N.add_0_r, Nat.add_0_r.
  - inversion Hr as [|? ? Hg Hr']; subst. simpl in Hg.
    change (burst_events ((gap, args') :: rest) ++ tail)
      with (Elapse gap :: Invoke args' :: (burst_events rest ++ tail)).
    rewrite !debounce_run_cons, elapse_gap by assumption.
    change (step wait v ?s (Invoke args'))
      with (executedFunction wait args' s).
    rewrite invoke_pending, (IH tail (n + gap) (S id) args' c Hr').
    rewrite last_args_cons, span_cons. simpl List.length.
    replace (n + gap + span rest) with (n + (gap + span rest)) by lia.
    replace (S id + List.length rest)%nat
      with (id + S (List.length rest))%nat by lia.
    reflexivity.
Qed.

Lemma burst_calls v t0 first rest settle :
  Forall (fun g => fst g < wait) rest ->
  wait <= settle ->
  calls (run wait v (burst first rest ++ [Elapse settle]) (init A t0))
  = [(t0 + span rest + wait, last_args first rest)].
Proof.
  intros Hr Hs.
  change (burst first rest ++ [Elapse settle])
    with (Invoke first :: (burst_events rest ++ [Elapse settle])).
  rewrite debounce_run_cons.
  change (step wait v (init A t0) (Invoke first))
    with (State t0 1 [Timer 0 (t0 + wait) first] (Some 0%nat) []).
  rewrite (burst_then v rest [Elapse settle] t0 0%nat first [] Hr).
  rewrite debounce_run_cons, debounce_run_nil, elapse_settle by assumption.
  reflexivity.
Qed.

Lemma burst_calls_late v t0 first rest late :
  Forall (fun g => fst g < wait) rest ->
  wait <= late ->
  calls (run wait v
           (burst first rest ++ [Tick late; Fire (List.length rest)])
           (init A t0))
  = [(t0 + span rest + late, last_args first rest)].
Proof.
  intros Hr Hl.
  change (burst first rest ++ [Tick late; Fire (List.length rest)])
    with (Invoke first
            :: (burst_events rest ++ [Tick late; Fire (List.length rest)])).
  rewrite debounce_run_cons.
  change (step wait v (init A t0) (Invoke first))
    with (State t0 1 [Timer 0 (t0 + wait) first] (Some 0%nat) []).
  rewrite (burst_then v rest _ t0 0%nat first [] Hr).
  rewrite !debounce_run_cons, debounce_run_nil.
  change (0 + List.length rest)%nat with (List.length rest).
  rewrite tick_fire by assumption. reflexivity.
Qed.

End Facts.



End DebounceFacts.

(** ** Facts about smooth scroll navigation *)

Module SmoothScrollFacts.
Import SmoothScroll SmoothScrollDom.

Local Open Scope string_scope.

(** [pushState] keeps the entry the user was on, one step back, and makes
    the new entry the current one. *)
Lemma pushState_entry url h :
  (index h < List.length (entries h))%nat ->
  entries (pushState url h) !! index (pushState url h) = Some url /\
  entries (pushState url h) !! index h = entries h !! index h /\
  List.length (entries (pushState url h)) = S (S (index h)).
Proof.
  intros Hi. unfold pushState. simpl.
  assert (Hl : List.length (firstn (S (index h)) (entries h)) = S (index h)).
  { rewrite length_firstn. lia. }
  repeat split.
  - rewrite lookup_app_r by lia. rewrite Hl, Nat.sub_diag. reflexivity.
  - rewrite lookup_app_l by lia. apply lookup_take_lt. lia.
  - rewrite length_app, Hl. simpl. lia.
Qed.

(** A click on a link to an existing section leaves a new entry in the
    session history: the history grows, where [replaceState] would have
    overwritten the current entry. *)
Lemma click_pushes_history_entry :
  click sample_document true "#about" sample_page
  = (true, Page [(1%nat, "smooth", "start")] [(1%nat, true)]
             (History [""; "#about"] 1)) /\
  replaceState "#about" (hist sample_page) = History ["#about"] 0 /\
  List.length (entries (hist (snd (click sample_document true "#about"
                                     sample_page))))
  <> List.length (entries (hist sample_page)).
Proof. repeat split. simpl. discriminate. Qed.

Lemma activeElement_app els before calls call :
  activeElement els before (calls ++ [call])
  = focusCall els (activeElement els before calls) call.
Proof. unfold activeElement. now rewrite fold_left_app. Qed.

(** Where the click listener departs from the claim: the history gets a
    further entry; a section whose id is no valid selector exists and yet the
    click is left to the browser; the call of focus leaves the focus on the
    link when the target is not focusable; and without [history.pushState]
    the address keeps its fragment. *)
Lemma click_departs_from_claim :
  (* a new history entry *)
  List.length (entries (hist (snd (click sample_document true "#about"
                                     sample_page))))
  <> List.length (entries (hist sample_page)) /\
  (* the target exists, the default action is not prevented *)
  (targetExists numbered_elements "#1st" /\
   click numbered_document true "#1st" sample_page = (false, sample_page)) /\
  (* the target is found, the focus does not move to it *)
  (sample_document "#about" = Found 1%nat /\
   activeElement sample_elements (Some 0%nat)
     (focusCalls (snd (click sample_document true "#about" sample_page)))
   = Some 0%nat) /\
  (* the target is found, the fragment is not updated *)
  (fragment (hist (snd (click sample_document false "#about" sample_page)))
   = Some "").
Proof.
  split; [simpl; discriminate|]. split; [|split; [split|]; reflexivity].
  split; [|reflexivity]. exists 0%nat, (Element "1st" true). now split.
Qed.

(** C1 (amended). For every click on an in-page anchor link (href beginning
    with [#], not the bare [#]) whose target element [document.querySelector]
    finds, the listener prevents the default navigation, scrolls the target
    into view (smooth, aligned to the start), calls focus on it with
    [preventScroll], which moves the focus to it when it is focusable and
    leaves the focus where it is otherwise, and, when [history.pushState]
    exists, pushes the fragment as a new entry of the session history, which
    becomes the current entry, and leaves the history alone when it does not
    exist; when no target is found the listener changes nothing and the
    default action of the link is not prevented. *)
Theorem smooth_scroll_click querySelector hasPushState href p :
  String.prefix "#" href = true ->
  href <> "#" ->
  (forall targetElement,
     querySelector href = Found targetElement ->
     click querySelector hasPushState href p
     = (true,
        Page (scrolls p ++ [(targetElement, "smooth", "start")])
             (focusCalls p ++ [(targetElement, true)])
             (if hasPushState then pushState href (hist p) else hist p)) /\
     (forall els before e,
        els !! targetElement = Some e ->
        activeElement els before
          (focusCalls (snd (click querySelector hasPushState href p)))
        = if el_focusable e then Some targetElement
          else activeElement els before (focusCalls p)) /\
     ((index (hist p) < List.length (entries (hist p)))%nat ->
      hasPushState = true ->
      let h := hist (snd (click querySelector hasPushState href p)) in
      fragment h = Some href /\
      index h = S (index (hist p)) /\
      entries h !! index (hist p) = entries (hist p) !! index (hist p)) /\
     (hasPushState = false ->
      hist (snd (click querySelector hasPushState href p)) = hist p)) /\
  ((forall targetElement, querySelector href <> Found targetElement) ->
   click querySelector hasPushState href p = (false, p)).
Proof.
  intros Hp Hne. unfold click, clickListener. rewrite Hp.
  destruct (String.eqb_spec href "#") as [E|_]; [contradiction|].
  split.
  - intros t Ht. rewrite Ht. split; [reflexivity|]. split; [|split].
    + intros els before e He. simpl.
      rewrite activeElement_app. unfold focusCall. simpl. now rewrite He.
    + intros Hi ->. simpl. unfold fragment.
      destruct (pushState_entry href (hist p) Hi) as (H1 & H2 & _).
      auto.
    + intros ->. reflexivity.
  - intros Hn. destruct (querySelector href) as [t| |]; try reflexivity.
    now destruct (Hn t).
Qed.

Lemma smooth_scroll_click_witness :
  click sample_document true "#about" sample_page
  = (true, Page [(1%nat, "smooth", "start")] [(1%nat, true)]
             (pushState "#about" (History [""] 0))) /\
  fragment (hist (snd (click sample_document true "#about" sample_page)))
  = Some "#about" /\
  activeElement [Element "" true; Element "about" true] (Some 0%nat)
    (focusCalls (snd (click sample_document true "#about" sample_page)))
  = Some 1%nat /\
  click sample_document true "#team" sample_page = (false, sample_page).
Proof.
  destruct (smooth_scroll_click sample_document true "#about" sample_page
              eq_refl) as [Hfound _]; [discriminate|].
  destruct (Hfound 1%nat eq_refl) as (H1 & H2 & H3 & _).
  split; [exact H1|]. split; [|split].
  - apply H3; [simpl; lia|reflexivity].
  - apply (H2 [Element "" true; Element "about" true] (Some 0%nat)
              (Element "about" true)). reflexivity.
  - apply (smooth_scroll_click sample_document true "#team" sample_page
             eq_refl).
    + discriminate.
    + intros t; discriminate.
Defined.

End SmoothScrollFacts.

(** ** Facts about the reveal animations *)

Module RevealFacts.
Import Reveal.

Lemma onEntry_visible s e x :
  x ∈ visibleClass (onEntry s e) <->
  x ∈ visibleClass s \/ (x = target e /\ isIntersecting e = true).
Proof.
  unfold onEntry. destruct (isIntersecting e); simpl.
  - rewrite elem_of_union, elem_of_singleton. intuition.
  - split; [auto|]. intros [?|[_ ?]]; [assumption|discriminate].
Qed.

Lemma onEntry_observed s e x :
  x ∈ observed (onEntry s e) <->
  x ∈ observed s /\ ~ (x = target e /\ isIntersecting e = true).
Proof.
  unfold onEntry. destruct (isIntersecting e); simpl.
  - rewrite elem_of_difference, elem_of_singleton. intuition.
  - split; [|tauto]. intros H. split; [assumption|].
    intros [_ ?]; discriminate.
Qed.

Lemma callback_visible es : forall s x,
  x ∈ visibleClass (callback es s) <->
  x ∈ visibleClass s \/ intersects x es = true.
Proof.
  unfold callback.
  induction es as [|e es IH]; intros s x; simpl.
  - split; [auto|]. intros [?|?]; [assumption|discriminate].
  - rewrite IH, onEntry_visible, orb_true_iff, andb_true_iff, Nat.eqb_eq.
    split; intros H; intuition (subst; auto).
Qed.

Lemma callback_observed es : forall s x,
  x ∈ observed (callback es s) <->
  x ∈ observed s /\ intersects x es = false.
Proof.
  unfold callback.
  induction es as [|e es IH]; intros s x; simpl.
  - tauto.
  - rewrite IH, onEntry_observed, orb_false_iff, andb_false_iff, Nat.eqb_neq.
    split.
    + intros [[Ho Hn] Hi]. repeat split; auto.
      destruct (isIntersecting e); [left|now right].
      intros Et. apply Hn. now split.
    + intros [Ho [Hn Hi]]. repeat split; auto.
      intros [-> He]. destruct Hn as [Hn|Hn]; congruence.
Qed.

(** The observer hears of an intersection of [x] exactly when it still
    observes [x]. *)
Lemma intersects_filter s x b :
  intersects x
    (List.filter (fun e => bool_decide (target e ∈ observed s)) b)
  = bool_decide (x ∈ observed s) && intersects x b.
Proof.
  unfold intersects. induction b as [|e b IH].
  - simpl. now rewrite andb_false_r.
  - cbn [List.filter existsb].
    destruct (bool_decide (target e ∈ observed s)) eqn:E;
      cbn [existsb]; rewrite IH;
      destruct (Nat.eqb_spec (target e) x) as [Ex|Hne];
      try (rewrite <- Ex, E); cbn [andb orb]; reflexivity.
Qed.

Lemma deliver_visible s b x :
  x ∈ visibleClass (deliver s b) <->
  x ∈ visibleClass s \/ (x ∈ observed s /\ intersects x b = true).
Proof.
  unfold deliver.
  rewrite callback_visible, intersects_filter, andb_true_iff, bool_decide_eq_true.
  tauto.
Qed.

Lemma deliver_observed s b x :
  x ∈ observed (deliver s b) <-> x ∈ observed s /\ intersects x b = false.
Proof.
  unfold deliver.
  rewrite callback_observed, intersects_filter, andb_false_iff,
    bool_decide_eq_false.
  tauto.
Qed.

Lemma deliver_separated s b : separated s -> separated (deliver s b).
Proof.
  unfold separated. intros H x.
  rewrite deliver_visible, deliver_observed.
  intros [Hv|[Ho Hi]] [Ho' Hn]; [now apply (H x)|congruence].
Qed.

Lemma run_app b1 b2 s : run (b1 ++ b2) s = run b2 (run b1 s).
Proof. unfold run. apply fold_left_app. Qed.

Lemma run_separated bs : forall s, separated s -> separated (run bs s).
Proof.
  induction bs as [|b bs IH]; intros s H; [assumption|].
  apply (IH (deliver s b)). now apply deliver_separated.
Qed.

(** The revealed state is never taken away. *)
Lemma run_visible_mono bs : forall s x,
  x ∈ visibleClass s -> x ∈ visibleClass (run bs s).
Proof.
  induction bs as [|b bs IH]; intros s x H; [assumption|].
  apply (IH (deliver s b)). apply deliver_visible. now left.
Qed.

(** An element that was unobserved is never observed again. *)
Lemma run_unobserved bs : forall s x,
  x ∉ observed s -> x ∉ observed (run bs s).
Proof.
  induction bs as [|b bs IH]; intros s x H; [assumption|].
  apply (IH (deliver s b)). rewrite deliver_observed. tauto.
Qed.

(** Without a reported intersection nothing happens to the element. *)
Lemma run_quiet bs : forall s x,
  Forall (fun b => intersects x b = false) bs ->
  (x ∈ visibleClass (run bs s) <-> x ∈ visibleClass s) /\
  (x ∈ observed (run bs s) <-> x ∈ observed s).
Proof.
  induction bs as [|b bs IH]; intros s x H; [tauto|].
  inversion H as [|? ? Hb Hbs]; subst.
  destruct (IH (deliver s b) x Hbs) as [IH1 IH2].
  change (run (b :: bs) s) with (run bs (deliver s b)).
  rewrite IH1, IH2, deliver_visible, deliver_observed.
  split; split; try tauto.
  intros [?|[_ ?]]; [assumption|congruence].
Qed.

Lemma reveals_visible bs : forall s x,
  x ∈ visibleClass s -> reveals x bs s = O.
Proof.
  induction bs as [|b bs IH]; intros s x H; [reflexivity|].
  simpl. rewrite (bool_decide_eq_false_2 (x ∉ visibleClass s)) by tauto.
  simpl. apply IH. apply deliver_visible. now left.
Qed.

Lemma reveals_le_1 bs : forall s x, (reveals x bs s <= 1)%nat.
Proof.
  induction bs as [|b bs IH]; intros s x; simpl; [lia|].
  destruct (bool_decide (x ∉ visibleClass s)) eqn:E1; simpl; [|apply IH].
  destruct (bool_decide (x ∈ visibleClass (deliver s b))) eqn:E2; [|apply IH].
  apply bool_decide_eq_true in E2. rewrite (reveals_visible bs _ x E2). lia.
Qed.

Lemma init_separated els : separated (initScrollAnimations true els).
Proof. intros x H. simpl in H. now apply not_elem_of_empty in H. Qed.

Lemma reveals_app b1 : forall b2 s x,
  reveals x (b1 ++ b2) s = (reveals x b1 s + reveals x b2 (run b1 s))%nat.
Proof.
  induction b1 as [|b b1 IH]; intros b2 s x; [reflexivity|].
  simpl. rewrite IH.
  change (run (b :: b1) s) with (run b1 (deliver s b)).
  destruct (_ && _); reflexivity.
Qed.

Lemma reveals_quiet bs : forall s x,
  Forall (fun b => intersects x b = false) bs -> reveals x bs s = O.
Proof.
  induction bs as [|b bs IH]; intros s x H; [reflexivity|].
  inversion H as [|? ? Hb Hbs]; subst. simpl. rewrite (IH _ _ Hbs).
  destruct (bool_decide (x ∉ visibleClass s)) eqn:E1; [|reflexivity].
  apply bool_decide_eq_true in E1.
  rewrite (bool_decide_eq_false_2 (x ∈ visibleClass (deliver s b)));
    [reflexivity|].
  rewrite deliver_visible. intros [?|[_ ?]]; [tauto|congruence].
Qed.

(** C7. For every observed content element, the revealed state is applied
    exactly once, by the first batch that reports the element as
    intersecting: before it the element is not revealed, after it the
    element is revealed and no longer observed, and whatever is reported
    afterwards (the element leaving and entering the viewport again) it
    stays revealed, stays unobserved and is not revealed a second time. *)
Theorem revealed_once (animated : list nat) (x : nat)
    (before : list (list entry)) (first : list entry)
    (after : list (list entry)) :
  x ∈ animated ->
  Forall (fun b => intersects x b = false) before ->
  intersects x first = true ->
  let s0 := initScrollAnimations true animated in
  (x ∉ visibleClass (run before s0)) /\
  x ∈ visibleClass (run (before ++ [first]) s0) /\
  x ∈ visibleClass (run (before ++ first :: after) s0) /\
  (x ∉ observed (run (before ++ first :: after) s0)) /\
  reveals x (before ++ [first]) s0 = 1%nat /\
  reveals x (before ++ first :: after) s0 = 1%nat.
Proof.
  intros Hx Hq Hi s0.
  destruct (run_quiet before s0 x Hq) as [Qv Qo].
  assert (Hv0 : x ∉ visibleClass (run before s0)).
  { rewrite Qv. simpl. apply not_elem_of_empty. }
  assert (Ho0 : x ∈ observed (run before s0)).
  { rewrite Qo. simpl. now apply elem_of_list_to_set. }
  assert (Hv1 : x ∈ visibleClass (run (before ++ [first]) s0)).
  { rewrite run_app. change (run [first] ?s) with (deliver s first).
    apply deliver_visible. auto. }
  assert (Hsep : separated (run (before ++ [first]) s0)).
  { apply run_separated, init_separated. }
  assert (E : before ++ first :: after = (before ++ [first]) ++ after).
  { now rewrite <- app_assoc. }
  assert (R1 : reveals x (before ++ [first]) s0 = 1%nat).
  { rewrite reveals_app, (reveals_quiet before _ _ Hq). simpl.
    rewrite (bool_decide_eq_true_2 _ Hv0). rewrite run_app in Hv1.
    change (run [first] ?s) with (deliver s first) in Hv1.
    now rewrite (bool_decide_eq_true_2 _ Hv1). }
  repeat split; try assumption.
  - rewrite E, run_app. now apply run_visible_mono.
  - rewrite E, run_app. apply run_unobserved. now apply Hsep.
  - rewrite E, reveals_app, R1, (reveals_visible after _ x Hv1). reflexivity.
Qed.

Lemma revealed_once_witness :
  let s0 := initScrollAnimations true [1; 2]%nat in
  let before := [[Entry 1 false; Entry 2 true]] in
  let first := [Entry 1 true] in
  let after := [[Entry 1 false]; [Entry 1 true]] in
  (1%nat ∉ visibleClass (run before s0)) /\
  1%nat ∈ visibleClass (run (before ++ [first]) s0) /\
  1%nat ∈ visibleClass (run (before ++ first :: after) s0) /\
  (1%nat ∉ observed (run (before ++ first :: after) s0)) /\
  reveals 1 (before ++ [first]) s0 = 1%nat /\
  reveals 1 (before ++ first :: after) s0 = 1%nat.
Proof.
  apply (revealed_once [1; 2]%nat 1%nat [[Entry 1 false; Entry 2 true]]
           [Entry 1 true] [[Entry 1 false]; [Entry 1 true]]).
  - apply list_elem_of_In. simpl. auto.
  - repeat constructor.
  - reflexivity.
Defined.

End RevealFacts.

(** ** Facts about the mobile menu *)

Module MobileMenuFacts.
Import MobileMenu.

Local Open Scope Z_scope.

(** *** What clicks and keys leave alone *)

Lemma same_skeleton_refl s : same_skeleton s s.
Proof. now repeat split. Qed.

Lemma same_skeleton_trans s1 s2 s3 :
  same_skeleton s1 s2 -> same_skeleton s2 s3 -> same_skeleton s1 s3.
Proof.
  unfold same_skeleton.
  intros (-> & -> & -> & -> & -> & ->) (-> & -> & -> & -> & -> & ->).
  now repeat split.
Qed.

Lemma insert_same_flag bs : forall b t e,
  bs !! b = Some t ->
  List.map attached (<[b := Toggle e (attached t)]> bs) = List.map attached bs.
Proof.
  induction bs as [|u bs IH]; intros b t e H; [discriminate|].
  destruct b as [|b]; simpl in *.
  - injection H as ->. reflexivity.
  - f_equal. now apply IH.
Qed.

Lemma toggleListener_skeleton b s : same_skeleton s (toggleListener b s).
Proof.
  unfold toggleListener.
  destruct (buttons s !! b) as [t|] eqn:E; [|apply same_skeleton_refl].
  unfold same_skeleton, flags. simpl. repeat split.
  - now apply insert_same_flag.
  - apply length_insert.
Qed.

Lemma buttonFocus_skeleton b s : same_skeleton s (buttonFocus b s).
Proof.
  unfold buttonFocus.
  destruct (buttons s !! b) as [t|]; [|apply same_skeleton_refl].
  destruct (attached t); [now repeat split|apply same_skeleton_refl].
Qed.

Lemma documentClickListener_skeleton t s b :
  same_skeleton s (documentClickListener t s b).
Proof.
  unfold documentClickListener, buttonClick.
  destruct (_ && _); [apply toggleListener_skeleton|apply same_skeleton_refl].
Qed.

Lemma documentKeydownListener_skeleton key s b :
  same_skeleton s (documentKeydownListener key s b).
Proof.
  unfold documentKeydownListener, buttonClick.
  destruct (_ && _); [|apply same_skeleton_refl].
  eapply same_skeleton_trans;
    [apply toggleListener_skeleton|apply buttonFocus_skeleton].
Qed.

Lemma fold_skeleton (f : state -> nat -> state) :
  (forall s b, same_skeleton s (f s b)) ->
  forall bs s, same_skeleton s (fold_left f bs s).
Proof.
  intros Hf bs. induction bs as [|b bs IH]; intros s; simpl.
  - apply same_skeleton_refl.
  - eapply same_skeleton_trans; [apply Hf|apply IH].
Qed.

Lemma userClick_skeleton t s : same_skeleton s (userClick t s).
Proof.
  unfold userClick.
  eapply same_skeleton_trans;
    [|apply fold_skeleton; intros; apply documentClickListener_skeleton].
  destruct t as [b| |]; try apply same_skeleton_refl.
  destruct (buttons s !! b) as [tg|]; [|apply same_skeleton_refl].
  destruct (attached tg); [apply toggleListener_skeleton|apply same_skeleton_refl].
Qed.

Lemma keydown_skeleton key s : same_skeleton s (step s (Keydown key)).
Proof.
  simpl. apply fold_skeleton. intros. apply documentKeydownListener_skeleton.
Qed.

(** *** The shape of the reachable states *)

Lemma firstAttached_none bs : forall i k,
  List.map attached bs = repeat false k -> firstAttached i bs = None.
Proof.
  induction bs as [|t bs IH]; intros i k H; [reflexivity|].
  destruct k as [|k]; [discriminate|]. simpl in *.
  injection H as -> H. now apply (IH _ k).
Qed.

Lemma firstAttached_last bs : forall i k,
  List.map attached bs = repeat false k ++ [true] ->
  firstAttached i bs = Some (i + k)%nat.
Proof.
  induction bs as [|t bs IH]; intros i k H.
  - destruct k; discriminate.
  - destruct k as [|k]; simpl in *.
    + injection H as -> _. f_equal. lia.
    + injection H as -> H. rewrite (IH (S i) k H). f_equal. lia.
Qed.

Lemma detach_last bs : forall k,
  List.map attached bs = repeat false k ++ [true] ->
  List.map attached (alter detach k bs) = repeat false (S k).
Proof.
  induction bs as [|t bs IH]; intros k H.
  - destruct k; discriminate.
  - destruct k as [|k]; simpl in *.
    + injection H as _ H. apply map_eq_nil in H as ->. reflexivity.
    + injection H as -> H. f_equal. now apply IH.
Qed.

Lemma filter_flags bs :
  List.length (List.filter attached bs)
  = List.length (List.filter id (List.map attached bs)).
Proof.
  induction bs as [|t bs IH]; [reflexivity|]. simpl.
  unfold id at 1. destruct (attached t); simpl; now rewrite IH.
Qed.

Lemma filter_repeat_false k tl :
  List.filter id (repeat false k ++ tl) = List.filter id tl.
Proof. induction k as [|k IH]; [reflexivity|exact IH]. Qed.

Lemma skeleton_wf narrow s s' : same_skeleton s s' -> wf narrow s -> wf narrow s'.
Proof.
  unfold same_skeleton, wf.
  intros (-> & -> & -> & -> & -> & ->). tauto.
Qed.

Lemma createMobileMenuButton_wf s :
  wf false s ->
  wf true (createMobileMenuButton s) /\
  List.length (buttons (createMobileMenuButton s)) = S (List.length (buttons s)).
Proof.
  intros (Hc & Hr & [k Hk] & Hcl & Hkl).
  unfold createMobileMenuButton. rewrite Hc. unfold wf, flags in *. simpl.
  rewrite length_app, Nat.add_1_r, seq_S, Hcl, Hkl. simpl.
  repeat split; try assumption.
  exists k. rewrite map_app, Hk. simpl. now rewrite app_nil_r.
Qed.

Lemma resizeHandler_wf narrow w s :
  wf narrow s ->
  wf (w <? 768) (resizeHandler w s) /\
  List.length (buttons (resizeHandler w s))
  = if negb narrow && (w <? 768) then S (List.length (buttons s))
    else List.length (buttons s).
Proof.
  intros Hwf. pose proof Hwf as (Hc & Hr & [k Hk] & Hcl & Hkl).
  unfold resizeHandler, existingButton. unfold flags in Hk.
  destruct narrow; simpl in Hk.
  - rewrite (firstAttached_last _ 0%nat k Hk). simpl.
    rewrite andb_false_r. rewrite (Z.leb_antisym w 768).
    destruct (w <? 768); simpl; [tauto|].
    split; [|apply length_alter].
    unfold wf, flags. simpl. rewrite length_alter.
    repeat split; try assumption.
    exists (S k). rewrite (detach_last _ _ Hk). simpl. now rewrite app_nil_r.
  - rewrite app_nil_r in Hk. rewrite (firstAttached_none _ 0%nat k Hk). simpl.
    rewrite andb_true_r.
    destruct (w <? 768); [now apply createMobileMenuButton_wf|tauto].
Qed.

Lemma step_wf narrow s e :
  wf narrow s ->
  match e with
  | Resize w =>
      wf (w <? 768) (step s e) /\
      List.length (buttons (step s e))
      = if negb narrow && (w <? 768) then S (List.length (buttons s))
        else List.length (buttons s)
  | _ =>
      wf narrow (step s e) /\
      List.length (buttons (step s e)) = List.length (buttons s)
  end.
Proof.
  intros Hwf. destruct e as [w|t|key].
  - simpl. destruct Hwf as (Hc & Hr & Hrest) eqn:E. rewrite Hr.
    apply resizeHandler_wf. tauto.
  - pose proof (userClick_skeleton t s) as Hs. split.
    + exact (skeleton_wf _ _ _ Hs Hwf).
    + apply Hs.
  - pose proof (keydown_skeleton key s) as Hs. split.
    + exact (skeleton_wf _ _ _ Hs Hwf).
    + apply Hs.
Qed.

Lemma menu_run_cons e es s : run (e :: es) s = run es (step s e).
Proof. reflexivity. Qed.

Lemma run_wf es : forall s previous,
  wf (previous <? 768) s ->
  wf (List.last (widths es) previous <? 768) (run es s) /\
  List.length (buttons (run es s))
  = (List.length (buttons s) + crossings previous (widths es))%nat.
Proof.
  induction es as [|e es IH]; intros s previous Hwf.
  - simpl. split; [assumption|lia].
  - rewrite menu_run_cons. pose proof (step_wf _ s e Hwf) as Hs.
    destruct e as [w|t|key].
    + destruct Hs as [Hs Hl]. destruct (IH _ w Hs) as [IH1 IH2].
      change (widths (Resize w :: es)) with (w :: widths es).
      split.
      * now rewrite ListFacts.last_cons.
      * rewrite IH2, Hl. simpl crossings.
        rewrite (Z.leb_antisym previous 768).
        destruct (previous <? 768); simpl; [lia|].
        destruct (w <? 768); lia.
    + destruct Hs as [Hs Hl]. destruct (IH _ previous Hs) as [IH1 IH2].
      change (widths (Click t :: es)) with (widths es).
      rewrite IH2, Hl. auto.
    + destruct Hs as [Hs Hl]. destruct (IH _ previous Hs) as [IH1 IH2].
      change (widths (Keydown key :: es)) with (widths es).
      rewrite IH2, Hl. auto.
Qed.

Lemma inert_step s e : inert s -> step s e = s.
Proof.
  intros (Hb & Hcl & Hkl & Hor). destruct e as [w|t|key]; simpl.
  - destruct (resizeListener s) eqn:Hr; [|reflexivity].
    destruct Hor as [?|Hc]; [discriminate|].
    unfold resizeHandler, existingButton, createMobileMenuButton.
    rewrite Hb, Hc. simpl. now destruct (w <? 768).
  - unfold userClick. destruct t as [b| |];
      rewrite ?Hb, ?lookup_nil, Hcl; reflexivity.
  - now rewrite Hkl.
Qed.

Lemma inert_run es : forall s, inert s -> run es s = s.
Proof.
  induction es as [|e es IH]; intros s H; [reflexivity|].
  rewrite menu_run_cons, (inert_step s e H). now apply IH.
Qed.

Lemma init_inert w0 navFound containerFound :
  navFound && containerFound = false ->
  inert (initMobileMenu w0 navFound containerFound).
Proof.
  unfold initMobileMenu, createMobileMenuButton, inert.
  destruct navFound, containerFound; try discriminate; intros _; simpl;
    destruct (w0 <? 768); simpl; auto.
Qed.

Lemma init_wf w0 :
  wf (w0 <? 768) (initMobileMenu w0 true true) /\
  List.length (buttons (initMobileMenu w0 true true))
  = if w0 <? 768 then 1%nat else 0%nat.
Proof.
  unfold initMobileMenu, createMobileMenuButton, wf, flags. simpl.
  destruct (w0 <? 768); simpl; repeat split; now exists 0%nat.
Qed.

Lemma reachable_shape w0 navFound containerFound es :
  let s := run es (initMobileMenu w0 navFound containerFound) in
  (wf (List.last (widths es) w0 <? 768) s \/ inert s) /\
  List.length (buttons s) = created w0 navFound containerFound es.
Proof.
  intros s. subst s. unfold created.
  destruct (navFound && containerFound) eqn:E.
  - apply andb_prop in E as [-> ->].
    destruct (init_wf w0) as [H0 L0].
    destruct (run_wf es _ w0 H0) as [H1 L1].
    rewrite L1, L0. split; [now left|]. now destruct (w0 <? 768).
  - pose proof (init_inert w0 _ _ E) as Hi.
    rewrite (inert_run es _ Hi). split; [now right|]. now destruct Hi as [-> _].
Qed.

(** At most one toggle is in the document, in every reachable state. *)
Lemma at_most_one_toggle w0 navFound containerFound es :
  (List.length
     (attachedToggles (run es (initMobileMenu w0 navFound containerFound)))
   <= 1)%nat.
Proof.
  destruct (reachable_shape w0 navFound containerFound es) as [[H|H] _].
  - destruct H as (_ & _ & [k Hk] & _). unfold attachedToggles, flags in *.
    rewrite filter_flags, Hk, filter_repeat_false.
    destruct (_ <? 768); simpl; lia.
  - destruct H as [Hb _]. unfold attachedToggles. rewrite Hb. simpl. lia.
Qed.

(** *** Listeners are only ever added *)

Lemma createMobileMenuButton_listeners s :
  hasContainer s = true ->
  clickListeners (createMobileMenuButton s)
  = clickListeners s ++ [List.length (buttons s)] /\
  keydownListeners (createMobileMenuButton s)
  = keydownListeners s ++ [List.length (buttons s)].
Proof. intros H. unfold createMobileMenuButton. now rewrite H. Qed.

Lemma createMobileMenuButton_prefix s :
  clickListeners s `prefix_of` clickListeners (createMobileMenuButton s) /\
  keydownListeners s `prefix_of` keydownListeners (createMobileMenuButton s).
Proof.
  unfold createMobileMenuButton. destruct (hasContainer s); simpl.
  - split; eexists; reflexivity.
  - split; reflexivity.
Qed.

Lemma step_prefix s e :
  clickListeners s `prefix_of` clickListeners (step s e) /\
  keydownListeners s `prefix_of` keydownListeners (step s e).
Proof.
  destruct e as [w|t|key].
  - simpl. destruct (resizeListener s); [|split; reflexivity].
    unfold resizeHandler.
    destruct (_ && _); [apply createMobileMenuButton_prefix|].
    destruct (existingButton s); [|split; reflexivity].
    destruct (768 <=? w); split; reflexivity.
  - change (step s (Click t)) with (userClick t s).
    destruct (userClick_skeleton t s) as (_ & _ & _ & _ & -> & ->).
    split; reflexivity.
  - destruct (keydown_skeleton key s) as (_ & _ & _ & _ & -> & ->).
    split; reflexivity.
Qed.

(** Removing the toggle: the handler on a width of 768 or more. *)
Lemma resizeHandler_remove w b s :
  768 <= w ->
  existingButton s = Some b ->
  resizeHandler w s
  = State (hasContainer s) (resizeListener s) (alter detach b (buttons s))
      (Nav false None (display (menu s)))
      (clickListeners s) (keydownListeners s) (focus s).
Proof.
  intros Hw Hb. unfold resizeHandler. rewrite Hb.
  assert (E1 : (w <? 768) = false) by (apply Z.ltb_ge; lia).
  assert (E2 : (768 <=? w) = true) by (apply Z.leb_le; lia).
  now rewrite E1, E2.
Qed.

(** *** The invariant of the specification *)

Lemma step_length s e :
  (List.length (buttons s) <= List.length (buttons (step s e)))%nat.
Proof.
  destruct e as [w|t|key].
  - simpl. destruct (resizeListener s); [|lia].
    unfold resizeHandler, createMobileMenuButton.
    destruct (_ && _).
    + destruct (hasContainer s); simpl; [rewrite length_app|]; lia.
    + destruct (existingButton s); [|lia].
      destruct (768 <=? w); simpl; [rewrite length_alter|]; lia.
  - change (step s (Click t)) with (userClick t s).
    destruct (userClick_skeleton t s) as (_ & _ & _ & -> & _). lia.
  - destruct (keydown_skeleton key s) as (_ & _ & _ & -> & _). lia.
Qed.

Lemma toggle_in_sync hc rl t m fo :
  attached t = true ->
  m = (if String.eqb (aria_expanded t) "true"
       then Nav true (Some "false"%string) "flex"
       else Nav false (Some "true"%string) "none") ->
  in_sync (toggleListener 0 (State hc rl [t] m [0%nat] [0%nat] fo)).
Proof.
  intros Ha ->. unfold toggleListener, in_sync. simpl. rewrite Ha.
  destruct (String.eqb (aria_expanded t) "true"); simpl; auto.
Qed.

Lemma buttonFocus_in_sync b s : in_sync s -> in_sync (buttonFocus b s).
Proof.
  unfold buttonFocus. destruct (buttons s !! b) as [t|]; [|auto].
  destruct (attached t); auto.
Qed.

Lemma step_in_sync s e : in_sync s -> in_sync (step s e).
Proof.
  intros H. pose proof (step_length s e) as Hl.
  destruct s as [hc rl bs m cl kl fo]. unfold in_sync in H. simpl in H, Hl.
  destruct bs as [|t [|u bs]].
  - destruct H as (-> & -> & Hm). destruct m as [mo ah di]. simpl in Hm.
    subst mo. destruct e as [w|tg|key]; simpl.
    + destruct rl; [|now repeat split].
      unfold resizeHandler, existingButton, createMobileMenuButton. simpl.
      destruct (w <? 768), hc; simpl; now repeat split.
    + unfold userClick. destruct tg; now repeat split.
    + now repeat split.
  - destruct H as (-> & -> & Hm). destruct e as [w|tg|key].
    + simpl. destruct rl; [|unfold in_sync; simpl; auto].
      unfold resizeHandler, existingButton, createMobileMenuButton. simpl.
      destruct (attached t) eqn:Ha; simpl.
      * rewrite andb_false_r. rewrite (Z.leb_antisym w 768).
        destruct (w <? 768); unfold in_sync; simpl; rewrite ?Ha; auto.
      * rewrite andb_true_r.
        destruct (w <? 768); [|unfold in_sync; simpl; rewrite Ha; auto].
        destruct hc; unfold in_sync; simpl; rewrite ?Ha; auto.
    + change (step ?s (Click tg)) with (userClick tg s). unfold userClick.
      destruct (attached t) eqn:Ha.
      * destruct tg as [[|b]| |]; simpl; rewrite ?Ha.
        -- pose proof (toggle_in_sync hc rl t m fo Ha Hm) as Hs.
           destruct (toggleListener 0 _) as [hc' rl' bs' m' cl' kl' fo'] eqn:E.
           unfold toggleListener in E. simpl in E. injection E as <- <- <- <- <- <- <-.
           exact Hs.
        -- unfold in_sync. simpl. rewrite Ha. auto.
        -- unfold in_sync. simpl. rewrite Ha. auto.
        -- unfold documentClickListener, buttonClick. simpl.
           destruct (menu_open m);
             [now apply toggle_in_sync|unfold in_sync; simpl; rewrite Ha; auto].
      * destruct tg as [[|b]| |]; simpl; rewrite ?Ha;
          unfold documentClickListener; simpl; rewrite ?Hm; simpl;
          unfold in_sync; simpl; rewrite Ha; auto.
    + change (step ?s (Keydown key))
        with (documentKeydownListener key s 0%nat).
      unfold documentKeydownListener, buttonClick. cbn [menu].
      destruct (attached t) eqn:Ha.
      * destruct (String.eqb key "Escape" && menu_open m).
        -- apply buttonFocus_in_sync. now apply toggle_in_sync.
        -- unfold in_sync; simpl. rewrite Ha; auto.
      * rewrite Hm, andb_false_r. unfold in_sync; simpl; rewrite Ha; auto.
  - assert (Hl' : (2 <= List.length (buttons
                     (step (State hc rl (t :: u :: bs) m cl kl fo) e)))%nat)
      by (simpl in *; lia).
    unfold in_sync.
    destruct (buttons (step _ e)) as [|t' [|u' bs']]; simpl in Hl'; auto; lia.
Qed.

Lemma init_in_sync w0 navFound containerFound :
  in_sync (initMobileMenu w0 navFound containerFound).
Proof.
  unfold initMobileMenu, createMobileMenuButton, in_sync.
  destruct navFound, containerFound, (w0 <? 768); simpl; auto.
Qed.

Lemma run_in_sync es : forall s, in_sync s -> in_sync (run es s).
Proof.
  induction es as [|e es IH]; intros s H; [assumption|].
  rewrite menu_run_cons. apply IH. now apply step_in_sync.
Qed.

(** As long as no second toggle has been created, the invariant of the
    specification holds. *)
Lemma consistent_with_one_toggle w0 navFound containerFound es :
  let s := run es (initMobileMenu w0 navFound containerFound) in
  (List.length (buttons s) <= 1)%nat -> consistent s.
Proof.
  intros s Hl.
  pose proof (run_in_sync es _ (init_in_sync w0 navFound containerFound)) as H.
  fold s in H. unfold in_sync in H. unfold consistent, attachedToggles.
  destruct (buttons s) as [|t [|u bs]]; simpl in *; [split; [lia|tauto]| |lia].
  destruct H as (_ & _ & Hm).
  destruct (attached t) eqn:Ha; simpl; [|split; [lia|tauto]].
  split; [lia|]. intros t' [<-|[]]. unfold menuVisible, menuHidden.
  destruct (String.eqb_spec (aria_expanded t) "true") as [E|E]; rewrite Hm;
    simpl; split; intros; auto; contradiction.
Qed.

(** C6. The specification's invariant (at most one toggle in the document,
    and the menu shown exactly when the toggle is marked expanded) fails in
    a reachable state.  After the menu is opened, the window is widened and
    narrowed again, the menu is opened with the new toggle and the user
    clicks outside, the document listener left behind by the first toggle
    closes the menu through that removed toggle: the toggle in the document
    stays marked expanded while the menu is hidden. *)
Theorem stale_listener_breaks_consistency :
  let s := run reopened_menu (initMobileMenu 600 true true) in
  buttons s = [Toggle "false" false; Toggle "true" true] /\
  menu s = Nav false (Some "true"%string) "none" /\
  clickListeners s = [0; 1]%nat /\
  ~ consistent s.
Proof.
  repeat split. intros [_ H].
  destruct (H (Toggle "true" true)) as [Hv _]; [vm_compute; auto|].
  destruct (Hv eq_refl) as [Hh _]. discriminate Hh.
Qed.

(** *** The listeners of removed toggles *)

(** A call that finds no [.nav-container] registers nothing, and a page
    loaded on a narrow window has a listener pair before any crossing. *)
Lemma listeners_not_one_per_call :
  (createMobileMenuButton (initMobileMenu 1024 true false)
   = initMobileMenu 1024 true false /\
   clickListeners (run [Resize 600] (initMobileMenu 1024 true false)) = [] /\
   keydownListeners (run [Resize 600] (initMobileMenu 1024 true false)) = [])
  /\
  (crossings 600 (widths []) = 0%nat /\
   clickListeners (run [] (initMobileMenu 600 true true)) = [0%nat] /\
   keydownListeners (run [] (initMobileMenu 600 true true)) = [0%nat]).
Proof. repeat split. Qed.

(** C10 (amended). Every call to [createMobileMenuButton] that finds the
    [.nav-container] registers one document click listener and one document
    keydown listener; no event unregisters a listener, also not the resize
    to 768px or more that removes the toggle, which changes only the
    presence of the button and the class and [aria-hidden] attribute of the
    menu; so the listener pairs are as many as the toggles created: one for
    a page loaded below 768px, and one more for every crossing below 768px
    that the resize handler sees. *)
Theorem listeners_accumulate :
  (forall s,
     hasContainer s = true ->
     clickListeners (createMobileMenuButton s)
     = clickListeners s ++ [List.length (buttons s)] /\
     keydownListeners (createMobileMenuButton s)
     = keydownListeners s ++ [List.length (buttons s)]) /\
  (forall s e,
     clickListeners s `prefix_of` clickListeners (step s e) /\
     keydownListeners s `prefix_of` keydownListeners (step s e)) /\
  (forall s w b,
     resizeListener s = true -> 768 <= w -> existingButton s = Some b ->
     step s (Resize w)
     = State (hasContainer s) (resizeListener s)
         (alter detach b (buttons s))
         (Nav false None (display (menu s)))
         (clickListeners s) (keydownListeners s) (focus s)) /\
  (forall w0 navFound containerFound es,
     let s := run es (initMobileMenu w0 navFound containerFound) in
     clickListeners s = seq 0 (created w0 navFound containerFound es) /\
     keydownListeners s = seq 0 (created w0 navFound containerFound es) /\
     List.length (buttons s) = created w0 navFound containerFound es).
Proof.
  split; [exact createMobileMenuButton_listeners|].
  split; [exact step_prefix|].
  split.
  - intros s w b Hr Hw Hb. rewrite <- (resizeHandler_remove w b s Hw Hb).
    simpl. now rewrite Hr.
  - intros w0 navFound containerFound es s.
    destruct (reachable_shape w0 navFound containerFound es) as [[H|H] L];
      fold s in H, L; rewrite <- L.
    + destruct H as (_ & _ & _ & -> & ->). auto.
    + destruct H as (-> & -> & -> & _). auto.
Qed.

Lemma listeners_accumulate_witness :
  clickListeners
    (run [Resize 600; Click (OnToggle 0); Resize 1024; Resize 600]
       (initMobileMenu 1024 true true)) = [0; 1]%nat /\
  step (initMobileMenu 600 true true) (Resize 800)
  = State true true [Toggle "false" false] (Nav false None "none")
      [0%nat] [0%nat] None.
Proof.
  destruct listeners_accumulate as (_ & _ & Hrm & Hn). split.
  - apply (Hn 1024 true true
             [Resize 600; Click (OnToggle 0); Resize 1024; Resize 600]).
  - apply (Hrm (initMobileMenu 600 true true) 800 0%nat eq_refl).
    + lia.
    + reflexivity.
Defined.

End MobileMenuFacts.

(** * Further properties *)

(** ** Trimming and validation *)

Module FormMore.
Import JsString Email Form FormSpec FormExamples FormAux FormFacts.

Local Open Scope string_scope.

Lemma trimStart_blank_app pre (x : JsString.t) :
  blank pre -> trimStart (pre ++ x)%list = trimStart x.
Proof.
  induction 1 as [|c pre Hc _ IH]; [reflexivity|]. simpl. now rewrite Hc.
Qed.

Lemma trimStart_blank (v : JsString.t) : blank v -> trimStart v = [].
Proof.
  intros H. rewrite <- (app_nil_r v). now rewrite trimStart_blank_app.
Qed.

Lemma trimStart_nil_blank (v : JsString.t) : trimStart v = [] -> blank v.
Proof.
  induction v as [|c v IH]; simpl; [constructor|].
  destruct (is_space c) eqn:E; [|discriminate].
  intros H. constructor; [exact E|now apply IH].
Qed.

Lemma trimStart_app (v post : JsString.t) :
  trimStart v <> [] -> trimStart (v ++ post)%list = (trimStart v ++ post)%list.
Proof.
  induction v as [|c v IH]; simpl; [congruence|].
  destruct (is_space c); auto.
Qed.

Lemma blank_rev (s : JsString.t) : blank s -> blank (rev s).
Proof. apply List.Forall_rev. Qed.

Lemma trimEnd_app_blank (x post : JsString.t) :
  blank post -> trimEnd (x ++ post)%list = trimEnd x.
Proof.
  intros H. unfold trimEnd. rewrite rev_app_distr.
  now rewrite trimStart_blank_app by now apply blank_rev.
Qed.

(** Whitespace around a value does not survive [trim]. *)
Lemma trim_surrounded pre v post :
  blank pre -> blank post -> trim (pre ++ v ++ post)%list = trim v.
Proof.
  intros Hpre Hpost. unfold trim. rewrite trimStart_blank_app by assumption.
  destruct (trimStart v) as [|c w] eqn:E.
  - rewrite trimStart_blank; [reflexivity|].
    apply List.Forall_app. split; [now apply trimStart_nil_blank|assumption].
  - rewrite trimStart_app by congruence. rewrite E.
    now apply trimEnd_app_blank.
Qed.

(** X1. Whitespace typed before or after a value changes nothing for
    validation: the decision and the message are those of the bare value. *)
Theorem validate_ignores_outer_whitespace f pre post :
  blank pre -> blank post ->
  validate (set_value (pre ++ f_value f ++ post)%list f) = validate f.
Proof.
  intros Hpre Hpost. unfold validate. simpl.
  now rewrite (trim_surrounded pre (f_value f) post Hpre Hpost).
Qed.

Lemma validate_ignores_outer_whitespace_witness :
  validate (set_value (lit "  " ++ f_value good_email ++ [9; 160]%N)%list good_email)
  = (true, "").
Proof.
  rewrite (validate_ignores_outer_whitespace good_email (lit "  ") [9; 160]%N).
  - reflexivity.
  - repeat constructor.
  - repeat constructor.
Defined.

(** ** What [validateField] changes *)

Lemma validate_set_aria_invalid v f : validate (set_aria_invalid v f) = validate f.
Proof. reflexivity. Qed.

Lemma fields_set_error_text id text d :
  fields (set_error_text id text d) = fields d.
Proof. unfold set_error_text. now destruct (errors d !! (id ++ "-error")). Qed.

Lemma errors_set_error_text id text d key :
  key <> id ++ "-error" ->
  errors (set_error_text id text d) !! key = errors d !! key.
Proof.
  intros Hk. unfold set_error_text.
  destruct (errors d !! (id ++ "-error")); [|reflexivity].
  simpl. now rewrite lookup_insert_ne.
Qed.



(** X3. Validating a field a second time changes nothing: same answer, same
    document. *)
Theorem validateField_idempotent d i :
  validateField i (snd (validateField i d)) = validateField i d.
Proof.
  unfold validateField at 2 3.
  destruct (fields d !! i) as [f|] eqn:Hf.
  - destruct (validate f) as [ok msg] eqn:Hv. simpl.
    unfold validateField. rewrite fields_set_error_text. simpl.
    rewrite list_lookup_insert_eq by now apply lookup_lt_Some in Hf.
    rewrite validate_set_aria_invalid, Hv. f_equal.
    unfold set_error_text. simpl.
    destruct (errors d !! (f_id f ++ "-error")) as [t|] eqn:He; simpl.
    + rewrite lookup_insert_eq. simpl.
      now rewrite list_insert_insert_eq, insert_insert_eq.
    + rewrite He. simpl. now rewrite list_insert_insert_eq.
  - simpl. unfold validateField. now rewrite Hf.
Qed.

(** ** The input listener *)

Lemma map_value_insert fs : forall i f g,
  fs !! i = Some f -> f_value g = f_value f ->
  List.map f_value (<[i := g]> fs) = List.map f_value fs.
Proof.
  induction fs as [|h fs IH]; intros i f g Hf Hg; [reflexivity|].
  destruct i as [|i]; simpl in *.
  - injection Hf as ->. now rewrite Hg.
  - f_equal. now apply (IH i f).
Qed.

(** X4. After an input event the field is not flagged invalid, whatever
    its value is worth: the listener sets [aria-invalid] of a flagged field
    to ["false"] and clears its error text without validating again, changes
    nothing else in the fields, leaves an unflagged field as it is, and
    never changes a value. *)
Theorem onInput_clears_flag d i :
  (forall f', fields (onInput i d) !! i = Some f' ->
              f_aria_invalid f' <> Some "true") /\
  (forall f, fields d !! i = Some f -> f_aria_invalid f = Some "true" ->
             fields (onInput i d)
             = <[i := set_aria_invalid "false" f]> (fields d) /\
             exists f', fields (onInput i d) !! i = Some f' /\
                        f_aria_invalid f' = Some "false") /\
  (forall f, fields d !! i = Some f -> f_aria_invalid f = Some "true" ->
             is_Some (errors d !! (f_id f ++ "-error")) ->
             errors (onInput i d) !! (f_id f ++ "-error") = Some "") /\
  (forall f, fields d !! i = Some f -> f_aria_invalid f <> Some "true" ->
             onInput i d = d) /\
  List.map f_value (fields (onInput i d)) = List.map f_value (fields d).
Proof.
  unfold onInput. destruct (fields d !! i) as [f|] eqn:Hf.
  - destruct (decide (f_aria_invalid f = Some "true")) as [Ha|Ha].
    + simpl. rewrite fields_set_error_text. split; [|split; [|split; [|split]]].
      * intros f'.
        rewrite list_lookup_insert_eq by now apply lookup_lt_Some in Hf.
        intros [= <-]. simpl. discriminate.
      * intros g [= <-] _. split; [reflexivity|].
        exists (set_aria_invalid "false" f). split; [|reflexivity].
        apply list_lookup_insert_eq. now apply lookup_lt_Some in Hf.
      * intros g [= <-] _ [t Ht]. unfold set_error_text. rewrite Ht. simpl.
        apply lookup_insert_eq.
      * intros g [= <-] Hn. contradiction.
      * now apply (map_value_insert _ i f).
    + split; [|split; [|split; [|split]]]; try reflexivity.
      * intros f'. rewrite Hf. intros [= <-]. assumption.
      * intros g [= <-] Hg. contradiction.
      * intros g [= <-] Hg. contradiction.
  - split; [|split; [|split; [|split]]]; try reflexivity; try discriminate.
    intros f'. rewrite Hf. discriminate.
Qed.

Lemma onInput_clears_flag_witness :
  (exists f',
     fields (onInput 0 (snd (validateField 0 (one_field bad_email send))))
       !! 0%nat = Some f' /\ f_aria_invalid f' = Some "false") /\
  errors (onInput 0 (snd (validateField 0 (one_field bad_email send))))
    !! "email-error" = Some "".
Proof.
  destruct (onInput_clears_flag
              (snd (validateField 0 (one_field bad_email send))) 0)
    as (_ & H1 & H2 & _).
  split.
  - apply (H1 (set_aria_invalid "true" bad_email)).
    + reflexivity.
    + reflexivity.
  - apply (H2 (set_aria_invalid "true" bad_email)).
    + reflexivity.
    + reflexivity.
    + eexists. reflexivity.
Defined.

(** ** The submit listener *)

Lemma validateField_fields d i f :
  fields d !! i = Some f ->
  fst (validateField i d) = valid f /\
  fields (snd (validateField i d)) = <[i := mark f]> (fields d).
Proof.
  intros Hf. unfold validateField, mark, valid. rewrite Hf.
  destruct (validate f) as [ok msg]. simpl.
  now rewrite fields_set_error_text.
Qed.

Lemma validateAll_from n : forall i d,
  (i + n)%nat = List.length (fields d) ->
  fst (validateAll n i d) = forallb valid (drop i (fields d)) /\
  fields (snd (validateAll n i d))
  = (take i (fields d) ++ List.map mark (drop i (fields d)))%list.
Proof.
  induction n as [|n IH]; intros i d Hn.
  - simpl. rewrite drop_ge, take_ge by lia. simpl. now rewrite app_nil_r.
  - destruct (lookup_lt_is_Some_2 (fields d) i) as [f Hf]; [lia|].
    destruct (validateField_fields d i f Hf) as [E1 E2].
    simpl. destruct (validateField i d) as [ok d1]. simpl in E1, E2.
    assert (Hn1 : (S i + n)%nat = List.length (fields d1)).
    { rewrite E2, length_insert. lia. }
    destruct (IH (S i) d1 Hn1) as [IH1 IH2].
    destruct (validateAll n (S i) d1) as [rest d2]. simpl in IH1, IH2.
    simpl. rewrite IH1, IH2, E2, E1.
    rewrite drop_insert_lt by lia.
    rewrite (take_S_r _ i (mark f))
      by (apply list_lookup_insert_eq; now apply lookup_lt_Some in Hf).
    rewrite take_insert_ge by lia.
    rewrite (drop_S _ f i Hf). simpl.
    now rewrite <- app_assoc.
Qed.

(** X5. The submit listener validates every field, also after a first
    one has failed: each field ends with the flag of its own validity, and
    the form counts as valid exactly when every field is. *)
Theorem validateAll_marks_every_field d :
  fst (validateAll (List.length (fields d)) 0 d) = forallb valid (fields d) /\
  fields (snd (validateAll (List.length (fields d)) 0 d))
  = List.map mark (fields d).
Proof. apply (validateAll_from (List.length (fields d)) 0 d). reflexivity. Qed.

Lemma map_value_mark fs : List.map f_value (List.map mark fs) = List.map f_value fs.
Proof. rewrite List.map_map. reflexivity. Qed.

(** The first flagged field of a validated form is the first field that
    fails validation. *)
Lemma firstInvalid_mark fs : forall k,
  forallb valid fs = false ->
  exists i f,
    firstInvalid k (List.map mark fs) = Some (k + i)%nat /\
    fs !! i = Some f /\ valid f = false /\
    forall j g, (j < i)%nat -> fs !! j = Some g -> valid g = true.
Proof.
  induction fs as [|h fs IH]; intros k H; [discriminate|].
  simpl in H.
  change (List.map mark (h :: fs)) with (mark h :: List.map mark fs).
  cbn [firstInvalid].
  change (f_aria_invalid (mark h)) with (Some (string_of_bool (negb (valid h)))).
  destruct (valid h) eqn:Hh; simpl in H; cbn [negb string_of_bool].
  - destruct (IH (S k) H) as (i & f & E & Hf & Hv & Hlt).
    destruct (decide (Some "false" = Some "true")) as [D|_]; [discriminate D|].
    exists (S i), f. rewrite E.
    split; [f_equal; lia|]. split; [exact Hf|]. split; [exact Hv|].
    intros [|j] g Hj Hg; simpl in Hg; [congruence|].
    apply (Hlt j g); [lia|auto].
  - destruct (decide (Some "true" = Some "true")) as [_|D]; [|contradiction].
    exists 0%nat, h.
    split; [f_equal; lia|]. split; [reflexivity|]. split; [exact Hh|].
    intros j g Hj. lia.
Qed.

(** X6. When some field fails validation, the submission stops there: the
    focus moves to the first failing field in document order, and the submit
    control, the feedback message and the values of the fields are not
    touched. *)
Theorem onSubmit_invalid_focuses_first during d :
  forallb valid (fields d) = false ->
  exists i f d',
    onSubmit during d = Some d' /\
    focused d' = Some i /\
    fields d !! i = Some f /\ valid f = false /\
    (forall j g, (j < i)%nat -> fields d !! j = Some g -> valid g = true) /\
    submitButton d' = submitButton d /\
    formMessage d' = formMessage d /\
    List.map f_value (fields d') = List.map f_value (fields d).
Proof.
  intros H. unfold onSubmit.
  destruct (validateAll_marks_every_field d) as [E1 E2].
  destruct (validateAll_frame (List.length (fields d)) 0 d) as (Fb & Fm & _).
  destruct (validateAll (List.length (fields d)) 0 d) as [ok d1].
  simpl in *. rewrite E1, H, E2.
  destruct (firstInvalid_mark (fields d) 0 H) as (i & f & E & Hf & Hv & Hlt).
  rewrite E. exists i, f. eexists. split; [reflexivity|]. simpl.
  rewrite E2, map_value_mark. auto 10.
Qed.

Lemma onSubmit_invalid_focuses_first_witness :
  exists d',
    onSubmit [] (Dom [good_email; message9; blank_name] ∅ send None 0 [] None)
    = Some d' /\ focused d' = Some 1%nat.
Proof.
  destruct (onSubmit_invalid_focuses_first []
              (Dom [good_email; message9; blank_name] ∅ send None 0 [] None)
              eq_refl) as (i & f & d' & E & Hfoc & _).
  exists d'. split; [exact E|].
  vm_compute in E. injection E as <-. reflexivity.
Defined.

(** ** Feedback messages *)


(** ** The failure path *)

Lemma set_error_text_button b id text d :
  set_error_text id text (set_submitButton b d)
  = set_submitButton b (set_error_text id text d).
Proof.
  unfold set_error_text. simpl.
  now destruct (errors d !! (id ++ "-error")).
Qed.

Lemma validateField_button b i d :
  snd (validateField i (set_submitButton b d))
  = set_submitButton b (snd (validateField i d)).
Proof.
  unfold validateField. simpl. destruct (fields d !! i) as [f|]; [|reflexivity].
  destruct (validate f) as [ok msg]. simpl.
  unfold set_error_text. simpl.
  now destruct (errors d !! (f_id f ++ "-error")).
Qed.

Lemma onInput_button b i d :
  onInput i (set_submitButton b d) = set_submitButton b (onInput i d).
Proof.
  unfold onInput. simpl. destruct (fields d !! i) as [f|]; [|reflexivity].
  destruct (decide (f_aria_invalid f = Some "true")); [|reflexivity].
  unfold set_error_text. simpl.
  now destruct (errors d !! (f_id f ++ "-error")).
Qed.

Lemma field_step_button b d e :
  field_step (set_submitButton b d) e = set_submitButton b (field_step d e).
Proof.
  destruct e as [i v|i]; simpl.
  - destruct (fields d !! i) as [f|]; [|reflexivity].
    apply (onInput_button b i (set_fields _ d)).
  - apply validateField_button.
Qed.

Lemma field_steps_button b es : forall d,
  fold_left field_step es (set_submitButton b d)
  = set_submitButton b (fold_left field_step es d).
Proof.
  induction es as [|e es IH]; intros d; [reflexivity|].
  simpl. now rewrite field_step_button, IH.
Qed.

(** X8. When the awaited submission is rejected, the error message is
    shown and the form is not reset: fields and error containers are what
    the user left them, only the submit control is restored. *)
Theorem rejected_submission_keeps_form during d b :
  submitButton d = Some b ->
  let d' := handleFormSubmissionAwait Rejected during d in
  formMessage d' = Some (Message (nodes d) failureText "error") /\
  fields d' = fields (fold_left field_step during d) /\
  errors d' = errors (fold_left field_step during d) /\
  submitButton d' = Some (Button (b_text b) false (Some "false")).
Proof.
  intros Hb d'. subst d'. unfold handleFormSubmissionAwait. rewrite Hb.
  unfold submitStart. rewrite field_steps_button. simpl.
  destruct (field_steps_frame during d) as (_ & _ & ->). auto.
Qed.

Lemma rejected_submission_keeps_form_witness :
  fields (handleFormSubmissionAwait Rejected [] (one_field good_email send))
  = [good_email].
Proof.
  apply (rejected_submission_keeps_form [] (one_field good_email send)
           (Button "Send Message" false None) eq_refl).
Defined.

End FormMore.

(** ** More on the debounce wrapper *)

Module DebounceMore.
Import Debounce DebounceAux DebounceFacts.

Section More.
Context {A : Type}.
Variable wait : N.

Lemma run_tidy es : forall s : state A,
  tidy s -> tidy (run wait Standard es s).
Proof.
  induction es as [|e es IH]; intros s H; [assumption|].
  rewrite debounce_run_cons. apply IH. now apply step_same.
Qed.

Lemma tidy_at_most_one (s : state A) :
  tidy s ->
  (List.length (pending s) <= 1)%nat /\
  forall t, In t (pending s) -> timeout s = Some (t_id t).
Proof.
  unfold tidy. destruct (pending s) as [|t [|u p]]; simpl; intros H.
  - split; [lia|tauto].
  - split; [lia|]. now intros t' [<-|[]].
  - destruct H.
Qed.

(** *** Calls that are far enough apart *)

Lemma invoke_idle n k o c (args : A) :
  executedFunction wait args (State n k [] o c)
  = State n (S k) [Timer k (n + wait) args] (Some k) c.
Proof. unfold executedFunction. now rewrite clearTimeout_idle. Qed.

Lemma spaced_rest v settle rest : forall n k id (args : A) o c,
  Forall (fun g => wait <= fst g) rest ->
  wait <= settle ->
  calls (run wait v (burst_events rest ++ [Elapse settle])
           (State n k [Timer id (n + wait) args] o c))
  = (c ++ due_times wait n args rest)%list.
Proof.
  induction rest as [|[gap args'] rest IH]; intros n k id args o c Hr Hs.
  - change (burst_events [] ++ [Elapse settle]) with [@Elapse A settle].
    now rewrite debounce_run_cons, debounce_run_nil, elapse_settle.
  - inversion Hr as [|? ? Hg Hr']; subst. simpl in Hg.
    change (burst_events ((gap, args') :: rest) ++ [Elapse settle])
      with (Elapse gap :: Invoke args'
              :: (burst_events rest ++ [Elapse settle])).
    rewrite !debounce_run_cons, elapse_settle by assumption.
    change (step wait v ?s (Invoke args'))
      with (executedFunction wait args' s).
    rewrite invoke_idle, (IH (n + gap) (S k) k args' (Some k) _ Hr' Hs).
    rewrite <- app_assoc. reflexivity.
Qed.

(** *** Never more calls than invocations *)

Lemma filter_id_le id (ts : list (timer A)) :
  (List.length (List.filter (fun t => negb (Nat.eqb (t_id t) id)) ts)
   <= List.length ts)%nat.
Proof.
  induction ts as [|t ts IH]; simpl; [lia|].
  destruct (negb _); simpl; lia.
Qed.

Lemma filter_id_lt (u : timer A) ts :
  In u ts ->
  (List.length (List.filter (fun t => negb (Nat.eqb (t_id t) (t_id u))) ts)
   < List.length ts)%nat.
Proof.
  induction ts as [|t ts IH]; simpl; [tauto|].
  intros [->|Hin].
  - rewrite Nat.eqb_refl. simpl. pose proof (filter_id_le (t_id u) ts). lia.
  - specialize (IH Hin). destruct (negb _); simpl; lia.
Qed.

Lemma clearTimeout_pending_le h (s : state A) :
  (List.length (pending (clearTimeout h s)) <= List.length (pending s))%nat /\
  calls (clearTimeout h s) = calls s.
Proof.
  destruct h as [id|]; simpl; [|split; [lia|reflexivity]].
  split; [apply filter_id_le|reflexivity].
Qed.

Lemma later_remove_load v (u : timer A) (s : state A) :
  In u (pending s) ->
  (load (later v (t_args u) (remove (t_id u) s)) <= load s)%nat.
Proof.
  intros Hin. pose proof (filter_id_lt u (pending s) Hin) as Hlt.
  unfold load, later.
  destruct v.
  - destruct (clearTimeout_pending_le (timeout (remove (t_id u) s))
                (remove (t_id u) s)) as [H1 H2].
    unfold func. simpl in *. rewrite H2, length_app. simpl. lia.
  - unfold func. simpl. rewrite length_app. simpl. lia.
Qed.

Lemma run_due_load v target fuel : forall s : state A,
  (load (run_due fuel v target s) <= load s)%nat.
Proof.
  induction fuel as [|fuel IH]; intros s; [simpl; lia|].
  rewrite run_due_S.
  destruct (first_due target (pending s)) as [u|] eqn:E; [|lia].
  apply first_due_in in E.
  etransitivity; [apply IH|].
  apply (later_remove_load v u (set_now (N.max (now s) (t_due u)) s)).
  exact E.
Qed.

Lemma step_load v (s : state A) e :
  (load (step wait v s e)
   <= load s + invocations [e])%nat.
Proof.
  destruct e as [args|d|id|d]; unfold step.
  - destruct (clearTimeout_pending_le (timeout s) s) as [H1 H2].
    unfold executedFunction, setTimeout, load. simpl.
    rewrite H2, length_app. simpl. lia.
  - unfold load. simpl. lia.
  - unfold fire.
    destruct (List.find _ (pending s)) as [u|] eqn:E; [|simpl; lia].
    destruct (t_due u <=? now s); [|simpl; lia].
    pose proof E as E'. apply find_id in E' as [-> _].
    apply List.find_some in E as [Hin _].
    pose proof (later_remove_load v u s Hin). simpl. lia.
  - pose proof (run_due_load v (now s + d) (List.length (pending s)) s).
    unfold load in *. simpl in *. lia.
Qed.

Lemma run_load v es : forall s : state A,
  (load (run wait v es s) <= load s + invocations es)%nat.
Proof.
  induction es as [|e es IH]; intros s; [simpl; lia|].
  rewrite debounce_run_cons.
  pose proof (IH (step wait v s e)). pose proof (step_load v s e).
  destruct e; simpl in *; lia.
Qed.

End More.

(** X9. Whatever the schedule of calls, passing time and timers run by the
    browser, the wrapper has at most one timer pending, and it is the one
    whose handle the closure variable holds. *)
Theorem at_most_one_timer_pending (A : Type) (wait : N) v es t0 :
  let s := run wait v es (init A t0) in
  (List.length (pending s) <= 1)%nat /\
  forall t, In t (pending s) -> timeout s = Some (t_id t).
Proof.
  intros s. apply tidy_at_most_one. subst s.
  destruct v; [rewrite run_same by apply tidy_init|];
    apply run_tidy, tidy_init.
Qed.



(** X11. [func] never runs more often than the wrapper was called,
    whatever the schedule. *)
Theorem calls_at_most_invocations (A : Type) (wait : N) v es t0 :
  (List.length (calls (run wait v es (init A t0))) <= invocations es)%nat.
Proof.
  pose proof (run_load wait v es (init A t0)) as H.
  unfold load in H. simpl in H. lia.
Qed.

End DebounceMore.

(** ** The header scroll effect *)

Module HeaderScrollFacts.
Import HeaderScroll.

Lemma header_run_cons e es s : run (e :: es) s = run es (step s e).
Proof. reflexivity. Qed.

(** While scroll events keep coming less than 10 ms apart the class is not
    touched; the timer of the last event is the one left pending. *)
Lemma scrolling_then rest : forall tail n id y cls c,
  Forall (fun g => (fst g < wait)%N) rest ->
  run (scrolling rest ++ tail)
    (State true y cls
       (Debounce.State n (S id) [Debounce.Timer id (n + wait) tt]
          (Some id) c))
  = run tail
      (State true (last_offset y rest) cls
         (Debounce.State (n + Debounce.span rest)
            (S (id + List.length rest))
            [Debounce.Timer (id + List.length rest)%nat
               (n + Debounce.span rest + wait) tt]
            (Some (id + List.length rest)%nat) c)).
Proof.
  induction rest as [|[gap y'] rest IH]; intros tail n id y cls c Hr.
  - change (scrolling [] ++ tail) with tail.
    change (Debounce.span (@nil (N * Q))) with 0%N. simpl List.length.
    now rewrite N.add_0_r, Nat.add_0_r.
  - inversion Hr as [|? ? Hg Hr']; subst. simpl in Hg.
    change (scrolling ((gap, y') :: rest) ++ tail)
      with (Wait gap :: Scroll y' :: (scrolling rest ++ tail)).
    rewrite !header_run_cons.
    unfold step at 2. cbn [timers listening scrollY scrolled].
    rewrite (DebounceFacts.elapse_gap wait Debounce.AsWritten n (S id) id tt
               (Some id) c gap Hg).
    cbn [Debounce.calls]. rewrite Nat.ltb_irrefl.
    unfold step at 1. cbn [timers listening scrollY scrolled].
    rewrite DebounceFacts.invoke_pending.
    rewrite (IH tail (n + gap)%N (S id) y' cls c Hr').
    unfold last_offset.
    change (List.map snd ((gap, y') :: rest)) with (y' :: List.map snd rest).
    rewrite ListFacts.last_cons.
    change (Debounce.span ((gap, y') :: rest))
      with (gap + Debounce.span rest)%N.
    simpl List.length.
    replace (n + gap + Debounce.span rest)%N
      with (n + (gap + Debounce.span rest))%N by lia.
    replace (S id + List.length rest)%nat
      with (id + S (List.length rest))%nat by lia.
    reflexivity.
Qed.



(** X13. Without a [header] element the module does nothing: no scroll
    ever schedules a timer or changes a class. *)
Theorem no_header_no_effect t0 y0 cls es :
  let s := run es (initHeaderScrollEffect false t0 y0 cls) in
  scrolled s = cls /\ Debounce.pending (timers s) = [] /\
  Debounce.calls (timers s) = [].
Proof.
  intros s. subst s.
  assert (H : forall es s,
             listening s = false -> Debounce.pending (timers s) = [] ->
             Debounce.calls (timers s) = [] ->
             scrolled (run es s) = scrolled s /\
             Debounce.pending (timers (run es s)) = [] /\
             Debounce.calls (timers (run es s)) = []).
  { clear. induction es as [|e es IH]; intros s Hl Hp Hc; [auto|].
    rewrite header_run_cons.
    destruct s as [l y cls [n k p o c]]. simpl in Hl, Hp, Hc. subst l p c.
    set (s0 := State false y cls (Debounce.State n k [] o [])).
    assert (H1 : listening (step s0 e) = false /\
                 Debounce.pending (timers (step s0 e)) = [] /\
                 Debounce.calls (timers (step s0 e)) = [] /\
                 scrolled (step s0 e) = cls)
      by (destruct e; repeat split).
    destruct H1 as (H1 & H2 & H3 & H4).
    destruct (IH (step s0 e) H1 H2 H3) as (-> & -> & ->). auto. }
  apply (H es (initHeaderScrollEffect false t0 y0 cls)); reflexivity.
Qed.

End HeaderScrollFacts.

(** ** More on the mobile menu *)

Module MobileMenuMore.
Import MobileMenu MobileMenuFacts.

Local Open Scope Z_scope.

(** X14. In every reachable state at most one toggle is in the document;
    on a page with a menu and a container there is one exactly when the
    width last seen (at load or by the resize handler) is below 768. *)
Theorem toggle_follows_width :
  (forall w0 navFound containerFound es,
     (List.length
        (attachedToggles (run es (initMobileMenu w0 navFound containerFound)))
      <= 1)%nat) /\
  (forall w0 es,
     List.length (attachedToggles (run es (initMobileMenu w0 true true)))
     = if List.last (widths es) w0 <? 768 then 1%nat else 0%nat).
Proof.
  split; [exact at_most_one_toggle|].
  intros w0 es. destruct (init_wf w0) as [H0 _].
  destruct (run_wf es _ w0 H0) as [(_ & _ & [k Hk] & _) _].
  unfold attachedToggles, flags in *.
  rewrite filter_flags, Hk, filter_repeat_false.
  now destruct (List.last (widths es) w0 <? 768).
Qed.

(** X15. As long as the script has created no second toggle, the menu is
    shown exactly when the toggle in the document is marked expanded. *)
Theorem menu_follows_first_toggle w0 navFound containerFound es :
  let s := run es (initMobileMenu w0 navFound containerFound) in
  (List.length (buttons s) <= 1)%nat ->
  forall t, In t (attachedToggles s) ->
    (aria_expanded t = "true"%string -> menuVisible s) /\
    (aria_expanded t <> "true"%string -> menuHidden s).
Proof.
  intros s Hl.
  now destruct (consistent_with_one_toggle w0 navFound containerFound es Hl).
Qed.

Lemma menu_follows_first_toggle_witness :
  menuVisible
    (run [Click (OnToggle 0); Click Outside; Keydown "Enter";
          Click (OnToggle 0)] (initMobileMenu 600 true true)).
Proof.
  apply (menu_follows_first_toggle 600 true true
           [Click (OnToggle 0); Click Outside; Keydown "Enter";
            Click (OnToggle 0)]) with (t := Toggle "true" true).
  - simpl. lia.
  - left. reflexivity.
  - reflexivity.
Defined.

Lemma fold_left_fixed {B} (f : state -> B -> state) s :
  (forall b, f s b = s) -> forall bs, fold_left f bs s = s.
Proof.
  intros H bs. induction bs as [|b bs IH]; [reflexivity|].
  simpl. now rewrite H.
Qed.

(** X16. What leaves the page alone: a key other than Escape, a click
    inside the navigation container that is not on the toggle, and, while
    the menu does not have the class [mobile-menu-open], any key and any
    click outside the container. *)
Theorem menu_ignores :
  (forall s key, key <> "Escape"%string -> step s (Keydown key) = s) /\
  (forall s, step s (Click InContainer) = s) /\
  (forall s key,
     menu_open (menu s) = false ->
     step s (Keydown key) = s /\ step s (Click Outside) = s).
Proof.
  split; [|split].
  - intros s key Hk. simpl. apply fold_left_fixed. intros b.
    unfold documentKeydownListener.
    destruct (String.eqb_spec key "Escape"); [contradiction|reflexivity].
  - intros s. simpl. unfold userClick. apply fold_left_fixed. reflexivity.
  - intros s key Hm. split; simpl.
    + apply fold_left_fixed. intros b. unfold documentKeydownListener.
      now rewrite Hm, andb_false_r.
    + unfold userClick. apply fold_left_fixed. intros b.
      unfold documentClickListener. now rewrite Hm, andb_false_r.
Qed.

Lemma menu_ignores_witness :
  step (run [Click (OnToggle 0)] (initMobileMenu 600 true true)) (Keydown "Tab")
  = run [Click (OnToggle 0)] (initMobileMenu 600 true true) /\
  step (initMobileMenu 600 true true) (Click Outside)
  = initMobileMenu 600 true true.
Proof.
  destruct menu_ignores as (H1 & _ & H3). split.
  - apply H1. discriminate.
  - apply (H3 (initMobileMenu 600 true true) "x"%string). reflexivity.
Defined.

(** X17. The Escape key on the open menu of the first toggle: the toggle
    is marked collapsed, the menu is hidden and loses its class, and the
    keyboard focus goes to the toggle. *)
Theorem escape_closes_menu w0 navFound containerFound es t :
  let s := run es (initMobileMenu w0 navFound containerFound) in
  buttons s = [t] ->
  attached t = true ->
  aria_expanded t = "true"%string ->
  let s' := step s (Keydown "Escape") in
  buttons s' = [Toggle "false" true] /\
  menu s' = Nav false (Some "true"%string) "none" /\
  focus s' = Some 0%nat.
Proof.
  intros s Hb Ha He.
  pose proof (run_in_sync es _ (init_in_sync w0 navFound containerFound)) as H.
  fold s in H. unfold in_sync in H. rewrite Hb, Ha, He in H.
  destruct H as (Hc & Hk & Hm). simpl in Hm.
  destruct s as [hc rl bs m cl kl fo]. simpl in *. subst bs kl m.
  destruct t as [ex at']. simpl in *. subst ex at'. repeat split.
Qed.

Lemma escape_closes_menu_witness :
  focus (step (run [Click (OnToggle 0)] (initMobileMenu 600 true true))
           (Keydown "Escape")) = Some 0%nat.
Proof.
  apply (escape_closes_menu 600 true true [Click (OnToggle 0)]
           (Toggle "true" true)); reflexivity.
Defined.

(** X18. Removing the toggle on a window of 768 or more leaves the inline
    [display] of the menu as it was: no resize to such a width changes it,
    and a page loaded below 768 and then widened has its menu without class
    and [aria-hidden] but still at [display: none]. *)
Theorem widening_keeps_display :
  (forall s w, 768 <= w ->
     display (menu (step s (Resize w))) = display (menu s)) /\
  (forall w0 w, w0 < 768 -> 768 <= w ->
     menu (run [Resize w] (initMobileMenu w0 true true))
     = Nav false None "none").
Proof.
  split.
  - intros s w Hw. simpl. destruct (resizeListener s); [|reflexivity].
    unfold resizeHandler.
    assert (E1 : (w <? 768) = false) by (apply Z.ltb_ge; lia).
    rewrite E1. simpl.
    destruct (existingButton s); [|reflexivity].
    now destruct (768 <=? w).
  - intros w0 w H0 Hw.
    assert (E0 : (w0 <? 768) = true) by (apply Z.ltb_lt; lia).
    assert (E1 : (w <? 768) = false) by (apply Z.ltb_ge; lia).
    assert (E2 : (768 <=? w) = true) by (apply Z.leb_le; lia).
    unfold run, initMobileMenu, createMobileMenuButton. rewrite E0. simpl.
    unfold resizeHandler, existingButton. simpl. now rewrite E1, E2.
Qed.

Lemma widening_keeps_display_witness :
  menu (run [Resize 1280] (initMobileMenu 375 true true))
  = Nav false None "none".
Proof.
  destruct widening_keeps_display as [_ H]. apply (H 375 1280); lia.
Defined.

End MobileMenuMore.

(** ** More on the reveal animations *)

Module RevealMore.
Import Reveal RevealFacts.

Lemma deliver_unobserving s b : observed s = ∅ -> deliver s b = s.
Proof.
  intros H. unfold deliver. rewrite H.
  replace (List.filter (fun e => bool_decide (target e ∈ (∅ : gset nat))) b)
    with (@nil entry); [reflexivity|].
  induction b as [|e b IH]; [reflexivity|]. simpl.
  rewrite bool_decide_eq_false_2 by apply not_elem_of_empty. exact IH.
Qed.

(** X19. Where the browser has no [IntersectionObserver] the module does
    nothing: no element is hidden behind the class [reveal], and whatever
    intersects the viewport later, nothing is ever changed. *)
Theorem unsupported_observer_is_inert animated batches :
  run batches (initScrollAnimations false animated) = State ∅ ∅ ∅.
Proof.
  induction batches as [|b bs IH]; [reflexivity|].
  change (run (b :: bs) ?s) with (run bs (deliver s b)).
  now rewrite deliver_unobserving.
Qed.

Lemma run_partition (P : nat -> Prop) bs : forall s,
  (forall x, P x <-> x ∈ observed s \/ x ∈ visibleClass s) ->
  forall x, P x <-> x ∈ observed (run bs s) \/ x ∈ visibleClass (run bs s).
Proof.
  induction bs as [|b bs IH]; intros s H; [exact H|].
  apply (IH (deliver s b)). intros x.
  rewrite deliver_observed, deliver_visible, (H x).
  destruct (intersects x b); intuition congruence.
Qed.

Lemma run_pendingClass bs : forall s, pendingClass (run bs s) = pendingClass s.
Proof.
  induction bs as [|b bs IH]; intros s; [reflexivity|].
  change (run (b :: bs) s) with (run bs (deliver s b)). rewrite IH.
  unfold deliver, callback.
  generalize (List.filter (fun e => bool_decide (target e ∈ observed s)) b).
  intros es. revert s. induction es as [|e es IHe]; intros s; [reflexivity|].
  simpl. rewrite IHe. unfold onEntry. now destruct (isIntersecting e).
Qed.

(** X20. At every moment each animated element is either still observed
    or revealed, never both; an element outside the selector is never
    revealed; and the class [reveal] stays on exactly the animated
    elements. *)
Theorem observed_or_revealed animated batches x :
  let s := run batches (initScrollAnimations true animated) in
  (x ∈ animated <-> x ∈ observed s \/ x ∈ visibleClass s) /\
  ~ (x ∈ observed s /\ x ∈ visibleClass s) /\
  (x ∈ pendingClass s <-> x ∈ animated).
Proof.
  intros s. subst s. split; [|split].
  - apply (run_partition (fun x => x ∈ animated)). intros y. simpl.
    rewrite elem_of_list_to_set. split; [auto|].
    intros [?|H]; [assumption|]. now apply not_elem_of_empty in H.
  - intros [Ho Hv].
    apply (run_separated batches _ (init_separated animated) x Hv Ho).
  - rewrite run_pendingClass. simpl. apply elem_of_list_to_set.
Qed.

End RevealMore.

(** ** More on smooth scroll navigation *)

Module SmoothScrollMore.
Import SmoothScroll.

Local Open Scope string_scope.

(** X21. A click is taken over exactly when the link is an in-page link
    other than the bare [#] whose target is found; in every other case
    (another kind of link, the bare [#], no such element, a fragment that
    is no valid selector) the page and the history are left as they are. *)
Theorem click_all_or_nothing querySelector hasPushState href p :
  (fst (click querySelector hasPushState href p) = true <->
   String.prefix "#" href = true /\ href <> "#" /\
   exists targetElement, querySelector href = Found targetElement) /\
  (fst (click querySelector hasPushState href p) = false ->
   snd (click querySelector hasPushState href p) = p).
Proof.
  unfold click, clickListener.
  destruct (String.prefix "#" href) eqn:Hp; simpl.
  - destruct (String.eqb_spec href "#") as [E|E]; simpl.
    + split; [|auto]. split; [discriminate|]. intros (_ & H & _). contradiction.
    + destruct (querySelector href) as [t| |] eqn:Hq; simpl.
      * split; [|discriminate]. split; eauto.
      * split; [|auto]. split; [discriminate|].
        intros (_ & _ & t & Ht). discriminate.
      * split; [|auto]. split; [discriminate|].
        intros (_ & _ & t & Ht). discriminate.
  - split; [|auto]. split; [discriminate|]. intros (H & _). discriminate.
Qed.

Lemma click_all_or_nothing_witness :
  snd (click (fun _ => SyntaxError) true "#1st" sample_page) = sample_page.
Proof.
  apply (click_all_or_nothing (fun _ => SyntaxError) true "#1st" sample_page).
  reflexivity.
Defined.

End SmoothScrollMore.

(** ** Keyboard navigation *)

Module KeyboardNavFacts.
Import KeyboardNav.

Local Open Scope string_scope.

(** X22. The keydown listener suppresses the browser's handling of the key
    exactly for Alt with [h] or [c] (lower case), also when the section is
    missing; it scrolls to at most one section, [home] for [h] and
    [contact] for [c], and only if that section exists; and it sets the
    500 ms focus timer exactly when Alt+[c] finds the contact section. *)
Theorem shortcuts doc e :
  (defaultPrevented (onKeydown doc e) = true <->
   altKey e = true /\ (key e = "h" \/ key e = "c")) /\
  scrolledTo (onKeydown doc e)
  = (if altKey e && String.eqb (key e) "h" && home doc then ["home"]
     else if altKey e && String.eqb (key e) "c" && contact doc then ["contact"]
     else []) /\
  focusTimers (onKeydown doc e)
  = (if altKey e && String.eqb (key e) "c" && contact doc then [500%N]
     else []).
Proof.
  unfold onKeydown, altC, altH, nothing.
  destruct (altKey e); simpl.
  - destruct (String.eqb_spec (key e) "h") as [Eh|Eh];
      destruct (String.eqb_spec (key e) "c") as [Ec|Ec];
      try (rewrite Eh in Ec; discriminate Ec);
      destruct (home doc), (contact doc); simpl;
      (split; [split; [intros; auto|intros; reflexivity]|split; reflexivity])
      || (split; [split; [discriminate|intros [_ [?|?]]; contradiction]
                 |split; reflexivity]).
  - split; [|split; reflexivity].
    split; [discriminate|]. intros [H _]. discriminate H.
Qed.

(** X23. Making the cards focusable touches only the cards without an
    interactive element, which all end with [tabindex="0"]; the other
    cards keep what they had; and doing it a second time changes nothing. *)
Theorem enhanceCards_focusable cards :
  List.length (enhanceCards cards) = List.length cards /\
  (forall i c, cards !! i = Some c ->
     enhanceCards cards !! i
     = Some (if hasInteractive c then c else Card false (Some "0"))) /\
  enhanceCards (enhanceCards cards) = enhanceCards cards.
Proof.
  unfold enhanceCards. split; [apply length_map|split].
  - intros i c Hc.
    change (List.map enhanceCard cards) with (enhanceCard <$> cards).
    rewrite list_lookup_fmap, Hc. simpl. unfold enhanceCard.
    now destruct (hasInteractive c).
  - rewrite List.map_map. apply List.map_ext. intros c.
    destruct c as [hi ti]. now destruct hi.
Qed.

Lemma enhanceCards_focusable_witness :
  enhanceCards [Card true None; Card false None] !! 1%nat
  = Some (Card false (Some "0")).
Proof.
  destruct (enhanceCards_focusable [Card true None; Card false None])
    as (_ & H & _).
  apply (H 1%nat (Card false None)). reflexivity.
Defined.

End KeyboardNavFacts.
